(** * gen_container_ids.py: container identifiers of the secpack registry

    The script derives, for each name of the fixed list [CONTAINERS], the
    identifier [h32 name = blake2b(name.encode(), digest_size=16).hexdigest()]
    and dumps the name -> identifier dictionary as JSON (indent 2) on
    [sys.stdout].

    The embedding follows the script line by line.  The interpreter and
    library operations it calls ([str.encode], [hashlib.blake2b],
    [hexdigest], the dict comprehension, [json.dump], [sys.stdout.write])
    are modelled the way they run: the UTF-8 encoder by its branches and bit
    operations, BLAKE2b as the streaming object (parameter block, update,
    final), the JSON encoder as the generator of chunks of
    [json.encoder._make_iterencode].  Reference definitions (RFC 3629,
    RFC 7693, positional base 16, a pretty printer) are given separately and
    the code is compared with them. *)

From Stdlib Require Import ZArith NArith String Ascii Bool Lia Eqdep_dec List.
From Stdlib Require Import Init.Byte Strings.Byte.
Import ListNotations.

Set Implicit Arguments.

(* ------------------------------------------------------------------ *)
(** ** Python values: [str], [bytes], exceptions *)

(** A code point of a Python [str]: any integer below 0x110000.  Surrogates
    (U+D800..U+DFFF) are code points like the others: a [str] may hold
    them. *)
Record codepoint : Set := mk_cp {
  cp_val : N;
  cp_ok : (cp_val <? 0x110000)%N = true
}.

Definition str := list codepoint.
Definition bytes := list byte.

(** [chr]: the code point of a number ([None] where Python raises
    ValueError). *)
Definition chr_opt (n : N) : option codepoint :=
  match (n <? 0x110000)%N as b return ((n <? 0x110000)%N = b -> option codepoint) with
  | true => fun H => Some (mk_cp n H)
  | false => fun _ => None
  end eq_refl.

Definition cp_nul : codepoint := mk_cp 0 eq_refl.

(** [chr] on numbers known to be in range. *)
Definition chr (n : N) : codepoint :=
  match chr_opt n with Some c => c | None => cp_nul end.

Definition ord (c : codepoint) : N := cp_val c.

(** A string literal of the script: its characters are below 256. *)
Definition lit (s : string) : str :=
  map (fun a => chr (N_of_ascii a)) (list_ascii_of_string s).

Definition str_eqb (a b : str) : bool :=
  (length a =? length b)%nat &&
  forallb (fun p => (ord (fst p) =? ord (snd p))%N) (combine a b).

Inductive exn : Set :=
| UnicodeEncodeError (start : nat)   (* 'utf-8' codec, surrogates not allowed *)
| ValueError.

(** Result of a call that may raise. *)
Inductive result (A : Type) : Type :=
| Ok (a : A)
| Raise (e : exn).
Arguments Ok {A} a.
Arguments Raise {A} e.

Definition bind {A B} (r : result A) (k : A -> result B) : result B :=
  match r with Ok a => k a | Raise e => Raise e end.

Notation "x <- r ;; k" := (bind r (fun x => k))
  (at level 61, r at next level, right associativity).

Definition byte_of_N (n : N) : byte :=
  match Byte.of_N (n mod 256) with Some b => b | None => x00 end.

Definition byte_of_Z (z : Z) : byte := byte_of_N (Z.to_N (z mod 256)).

Definition Z_of_byte (b : byte) : Z := Z.of_N (Byte.to_N b).

(* ------------------------------------------------------------------ *)
(** ** [str.encode()]: the strict UTF-8 encoder *)

Module Utf8.
Local Open Scope N_scope.

Definition is_surrogate (ch : N) : bool := (0xD800 <=? ch) && (ch <=? 0xDFFF).

(** One character, as the encoder's chain of tests writes it. *)
Definition encode_char (ch : N) : option bytes :=
  if ch <? 0x80 then
    Some [byte_of_N ch]
  else if ch <? 0x800 then
    Some [byte_of_N (N.lor 0xc0 (N.shiftr ch 6));
          byte_of_N (N.lor 0x80 (N.land ch 0x3f))]
  else if is_surrogate ch then
    None
  else if ch <? 0x10000 then
    Some [byte_of_N (N.lor 0xe0 (N.shiftr ch 12));
          byte_of_N (N.lor 0x80 (N.land (N.shiftr ch 6) 0x3f));
          byte_of_N (N.lor 0x80 (N.land ch 0x3f))]
  else
    Some [byte_of_N (N.lor 0xf0 (N.shiftr ch 18));
          byte_of_N (N.lor 0x80 (N.land (N.shiftr ch 12) 0x3f));
          byte_of_N (N.lor 0x80 (N.land (N.shiftr ch 6) 0x3f));
          byte_of_N (N.lor 0x80 (N.land ch 0x3f))].

(** The encoder loop; [i] is the index of the current character.  With the
    default error handler ('strict') a surrogate raises UnicodeEncodeError
    at its position. *)
Fixpoint encode_from (i : nat) (s : str) : result bytes :=
  match s with
  | [] => Ok []
  | c :: rest =>
      match encode_char (ord c) with
      | None => Raise (UnicodeEncodeError i)
      | Some bs => tl <- encode_from (S i) rest ;; Ok (bs ++ tl)
      end
  end.

Definition encode (s : str) : result bytes := encode_from 0 s.

End Utf8.

(** Reference: UTF-8 of RFC 3629, by the table of ranges and positional
    arithmetic; defined on Unicode scalar values only. *)
Module Rfc3629.
Local Open Scope N_scope.

Definition scalar_value (c : N) : Prop :=
  c < 0xD800 \/ (0xDFFF < c /\ c <= 0x10FFFF).

Definition scalar_valueb (c : N) : bool :=
  (c <? 0xD800) || ((0xDFFF <? c) && (c <=? 0x10FFFF)).

Definition octets (c : N) : list N :=
  if c <=? 0x7F then [c]
  else if c <=? 0x7FF then [192 + c / 64; 128 + c mod 64]
  else if c <=? 0xFFFF then [224 + c / 4096; 128 + (c / 64) mod 64; 128 + c mod 64]
  else [240 + c / 262144; 128 + (c / 4096) mod 64; 128 + (c / 64) mod 64; 128 + c mod 64].

Fixpoint utf8 (s : list N) : option bytes :=
  match s with
  | [] => Some []
  | c :: rest =>
      if scalar_valueb c then
        match utf8 rest with
        | Some tl => Some (map byte_of_N (octets c) ++ tl)
        | None => None
        end
      else None
  end.

End Rfc3629.

(* ------------------------------------------------------------------ *)
(** ** 64-bit words *)

Module W64.
Local Open Scope Z_scope.

Definition wrap (x : Z) : Z := x mod 2 ^ 64.
Definition add (a b : Z) : Z := wrap (a + b).
Definition rotr (x : Z) (c : Z) : Z :=
  Z.lor (Z.shiftr x c) (wrap (Z.shiftl x (64 - c))).

(** [load64]: little-endian read of 8 bytes. *)
Definition load64 (p : bytes) : Z :=
  fold_right (fun b acc => Z.lor (Z_of_byte b) (Z.shiftl acc 8)) 0 (firstn 8 p).

(** [store64]: little-endian write of 8 bytes. *)
Definition store64 (w : Z) : bytes :=
  map (fun i => byte_of_Z (Z.shiftr w (8 * Z.of_nat i))) (seq 0 8).

(** [v[i] = x] on a fixed-size array. *)
Fixpoint upd (v : list Z) (i : nat) (x : Z) : list Z :=
  match v, i with
  | [], _ => []
  | _ :: t, O => x :: t
  | y :: t, S j => y :: upd t j x
  end.

Definition get (v : list Z) (i : nat) : Z := nth i v 0.

End W64.

(* ------------------------------------------------------------------ *)
(** ** [hashlib.blake2b]: the streaming hash object *)

Module Blake2b.
Import W64.
Local Open Scope Z_scope.

Definition BLOCKBYTES : nat := 128.
Definition OUTBYTES : nat := 64.

Definition blake2b_IV : list Z :=
  [ 0x6a09e667f3bcc908; 0xbb67ae8584caa73b;
    0x3c6ef372fe94f82b; 0xa54ff53a5f1d36f1;
    0x510e527fade682d1; 0x9b05688c2b3e6c1f;
    0x1f83d9abfb41bd6b; 0x5be0cd19137e2179 ].

Definition blake2b_sigma : list (list nat) :=
  [ [ 0;  1;  2;  3;  4;  5;  6;  7;  8;  9; 10; 11; 12; 13; 14; 15];
    [14; 10;  4;  8;  9; 15; 13;  6;  1; 12;  0;  2; 11;  7;  5;  3];
    [11;  8; 12;  0;  5;  2; 15; 13; 10; 14;  3;  6;  7;  1;  9;  4];
    [ 7;  9;  3;  1; 13; 12; 11; 14;  2;  6;  5; 10;  4;  0; 15;  8];
    [ 9;  0;  5;  7;  2;  4; 10; 15; 14;  1; 11; 12;  6;  8;  3; 13];
    [ 2; 12;  6; 10;  0; 11;  8;  3;  4; 13;  7;  5; 15; 14;  1;  9];
    [12;  5;  1; 15; 14; 13;  4; 10;  0;  7;  6;  3;  9;  2;  8; 11];
    [13; 11;  7; 14; 12;  1;  3;  9;  5;  0; 15;  4;  8;  6;  2; 10];
    [ 6; 15; 14;  9; 11;  3;  0;  8; 12;  2; 13;  7;  1;  4; 10;  5];
    [10;  2;  8;  4;  7;  6;  1;  5; 15; 11;  9; 14;  3; 12; 13;  0];
    [ 0;  1;  2;  3;  4;  5;  6;  7;  8;  9; 10; 11; 12; 13; 14; 15];
    [14; 10;  4;  8;  9; 15; 13;  6;  1; 12;  0;  2; 11;  7;  5;  3] ]%nat.

(** The mixing function [G] on the working vector. *)
Definition G (v : list Z) (a b c d : nat) (x y : Z) : list Z :=
  let v := upd v a (add (add (get v a) (get v b)) x) in
  let v := upd v d (rotr (Z.lxor (get v d) (get v a)) 32) in
  let v := upd v c (add (get v c) (get v d)) in
  let v := upd v b (rotr (Z.lxor (get v b) (get v c)) 24) in
  let v := upd v a (add (add (get v a) (get v b)) y) in
  let v := upd v d (rotr (Z.lxor (get v d) (get v a)) 16) in
  let v := upd v c (add (get v c) (get v d)) in
  let v := upd v b (rotr (Z.lxor (get v b) (get v c)) 63) in
  v.

(** One round with the message schedule [s]. *)
Definition mix_round (m : list Z) (s : list nat) (v : list Z) : list Z :=
  let ms i := get m (nth i s O) in
  let v := G v 0 4  8 12 (ms 0%nat) (ms 1%nat) in
  let v := G v 1 5  9 13 (ms 2%nat) (ms 3%nat) in
  let v := G v 2 6 10 14 (ms 4%nat) (ms 5%nat) in
  let v := G v 3 7 11 15 (ms 6%nat) (ms 7%nat) in
  let v := G v 0 5 10 15 (ms 8%nat) (ms 9%nat) in
  let v := G v 1 6 11 12 (ms 10%nat) (ms 11%nat) in
  let v := G v 2 7  8 13 (ms 12%nat) (ms 13%nat) in
  let v := G v 3 4  9 14 (ms 14%nat) (ms 15%nat) in
  v.

Definition ROUND (m : list Z) (r : nat) (v : list Z) : list Z :=
  mix_round m (nth r blake2b_sigma []) v.

Record blake2b_state : Type := mk_state {
  h : list Z;          (* uint64_t h[8] *)
  t : Z * Z;           (* uint64_t t[2] *)
  f : Z * Z;           (* uint64_t f[2] *)
  buf : bytes;         (* buf[0 .. buflen-1] *)
  outlen : nat;
  last_node : bool
}.

Definition buflen (st : blake2b_state) : nat := length (buf st).

Definition set_h st x := mk_state x (t st) (f st) (buf st) (outlen st) (last_node st).
Definition set_t st x := mk_state (h st) x (f st) (buf st) (outlen st) (last_node st).
Definition set_f st x := mk_state (h st) (t st) x (buf st) (outlen st) (last_node st).
Definition set_buf st x := mk_state (h st) (t st) (f st) x (outlen st) (last_node st).

(** The 64-byte parameter block of a sequential, unkeyed hash:
    digest_length, key_length 0, fanout 1, depth 1, and zeros (leaf length,
    node offset, node depth, inner length, reserved, salt, personal). *)
Definition blake2b_param (digest_size : nat) : bytes :=
  [byte_of_N (N.of_nat digest_size); x00; x01; x01] ++ repeat x00 60.

Definition blake2b_init_param (P : bytes) : blake2b_state :=
  mk_state
    (map (fun i => Z.lxor (get blake2b_IV i) (load64 (skipn (8 * i) P))) (seq 0 8))
    (0, 0) (0, 0) [] (N.to_nat (Byte.to_N (nth 0 P x00))) false.

Definition blake2b_increment_counter (st : blake2b_state) (inc : Z) : blake2b_state :=
  let t0 := add (fst (t st)) inc in
  let t1 := add (snd (t st)) (if t0 <? inc then 1 else 0) in
  set_t st (t0, t1).

Definition blake2b_set_lastblock (st : blake2b_state) : blake2b_state :=
  let f1 := if last_node st then 2 ^ 64 - 1 else snd (f st) in
  set_f st (2 ^ 64 - 1, f1).

Definition blake2b_compress (st : blake2b_state) (block : bytes) : blake2b_state :=
  let m := map (fun i => load64 (skipn (8 * i) block)) (seq 0 16) in
  let v := h st ++ firstn 4 blake2b_IV ++
           [ Z.lxor (get blake2b_IV 4) (fst (t st));
             Z.lxor (get blake2b_IV 5) (snd (t st));
             Z.lxor (get blake2b_IV 6) (fst (f st));
             Z.lxor (get blake2b_IV 7) (snd (f st)) ] in
  let v := fold_left (fun v r => ROUND m r v) (seq 0 12) v in
  set_h st (map (fun i => Z.lxor (Z.lxor (get (h st) i) (get v i)) (get v (i + 8)))
               (seq 0 8)).

(** The [while (inlen > BLOCKBYTES)] loop of [blake2b_update]; it consumes
    one block per iteration, so [length input] iterations are enough. *)
Fixpoint update_loop (n : nat) (st : blake2b_state) (input : bytes)
  : blake2b_state * bytes :=
  match n with
  | O => (st, input)
  | S n' =>
      if (BLOCKBYTES <? length input)%nat then
        update_loop n'
          (blake2b_compress (blake2b_increment_counter st (Z.of_nat BLOCKBYTES)) input)
          (skipn BLOCKBYTES input)
      else (st, input)
  end.

Definition blake2b_update (st : blake2b_state) (input : bytes) : blake2b_state :=
  match input with
  | [] => st
  | _ =>
      let left := buflen st in
      let fill := (BLOCKBYTES - left)%nat in
      if (fill <? length input)%nat then
        let st1 := set_buf st (buf st ++ firstn fill input) in
        let st1 := blake2b_increment_counter st1 (Z.of_nat BLOCKBYTES) in
        let st1 := set_buf (blake2b_compress st1 (buf st1)) [] in
        let input := skipn fill input in
        let '(st2, rest) := update_loop (length input) st1 input in
        set_buf st2 (buf st2 ++ rest)
      else
        set_buf st (buf st ++ input)
  end.

Definition blake2b_final (st : blake2b_state) : bytes :=
  let st := blake2b_increment_counter st (Z.of_nat (buflen st)) in
  let st := blake2b_set_lastblock st in
  let st := set_buf st (buf st ++ repeat x00 (BLOCKBYTES - buflen st)) in
  let st := blake2b_compress st (buf st) in
  firstn (outlen st) (flat_map store64 (h st)).

(** [blake2b(data, digest_size=n)]: the constructor checks the size, builds
    the state from the parameter block and absorbs [data]. *)
Definition blake2b (data : bytes) (digest_size : nat) : result blake2b_state :=
  if ((1 <=? digest_size) && (digest_size <=? OUTBYTES))%nat then
    Ok (blake2b_update (blake2b_init_param (blake2b_param digest_size)) data)
  else Raise ValueError.

Definition digest (st : blake2b_state) : bytes := blake2b_final st.

End Blake2b.

(** Reference: BLAKE2b of RFC 7693 (unkeyed, sequential), as the RFC words
    it: the message is padded with zero bytes to [dd] blocks of 128 bytes,
    every block but the last is compressed with the offset counter
    [(i + 1) * 128], the last one with the message length and the
    finalization flag.  The mixing of one round ([G] on the columns and the
    diagonals) is the same arithmetic in the RFC and in the code and is taken
    from above; initialization, constants, message schedule, counter, padding
    and the split into blocks are the RFC's own. *)
Module Rfc7693.
Import W64.
Local Open Scope Z_scope.

Definition bb : nat := 128.

(** "The first 64 bits of the fractional parts of the square roots of the
    first eight prime numbers". *)
Definition IV : list Z :=
  map (fun p => Z.sqrt (p * 2 ^ 128) mod 2 ^ 64) [2; 3; 5; 7; 11; 13; 17; 19].

Definition SIGMA : list (list nat) :=
  [ [ 0;  1;  2;  3;  4;  5;  6;  7;  8;  9; 10; 11; 12; 13; 14; 15];
    [14; 10;  4;  8;  9; 15; 13;  6;  1; 12;  0;  2; 11;  7;  5;  3];
    [11;  8; 12;  0;  5;  2; 15; 13; 10; 14;  3;  6;  7;  1;  9;  4];
    [ 7;  9;  3;  1; 13; 12; 11; 14;  2;  6;  5; 10;  4;  0; 15;  8];
    [ 9;  0;  5;  7;  2;  4; 10; 15; 14;  1; 11; 12;  6;  8;  3; 13];
    [ 2; 12;  6; 10;  0; 11;  8;  3;  4; 13;  7;  5; 15; 14;  1;  9];
    [12;  5;  1; 15; 14; 13;  4; 10;  0;  7;  6;  3;  9;  2;  8; 11];
    [13; 11;  7; 14; 12;  1;  3;  9;  5;  0; 15;  4;  8;  6;  2; 10];
    [ 6; 15; 14;  9; 11;  3;  0;  8; 12;  2; 13;  7;  1;  4; 10;  5];
    [10;  2;  8;  4;  7;  6;  1;  5; 15; 11;  9; 14;  3; 12; 13;  0] ]%nat.

(** Little-endian interpretation of bytes as a number, and back. *)
Definition le_word (bs : bytes) : Z :=
  fold_right (fun b acc => Z_of_byte b + 256 * acc) 0 bs.

Definition le_bytes (w : Z) : bytes :=
  map (fun j => byte_of_Z (w / 256 ^ Z.of_nat j)) (seq 0 8).

Definition block_words (block : bytes) : list Z :=
  map (fun i => le_word (firstn 8 (skipn (8 * i) block))) (seq 0 16).

(** Compression function [F(h, m, t, f)]; [t] is the 128-bit offset
    counter. *)
Definition F (h : list Z) (m : list Z) (t : Z) (f : bool) : list Z :=
  let v := h ++ IV in
  let v := upd v 12 (Z.lxor (get v 12) (t mod 2 ^ 64)) in
  let v := upd v 13 (Z.lxor (get v 13) ((t mod 2 ^ 128) / 2 ^ 64)) in
  let v := if f then upd v 14 (Z.lxor (get v 14) (2 ^ 64 - 1)) else v in
  let v := fold_left
             (fun v i => Blake2b.mix_round m (nth (i mod 10) SIGMA []) v)
             (seq 0 12) v in
  map (fun i => Z.lxor (Z.lxor (get h i) (get v i)) (get v (i + 8))) (seq 0 8).

(** Number of blocks: [ceil(ll / bb)], and 1 for the empty message. *)
Definition dd (ll : nat) : nat := Nat.max 1 ((ll + (bb - 1)) / bb).

Definition padded (msg : bytes) : bytes :=
  msg ++ repeat x00 (dd (length msg) * bb - length msg).

Fixpoint blocks (n : nat) (data : bytes) : list bytes :=
  match n with
  | O => []
  | S k => firstn bb data :: blocks k (skipn bb data)
  end.

Fixpoint compress_blocks (h : list Z) (i : nat) (d : list bytes) (ll : Z)
  : list Z :=
  match d with
  | [] => h
  | b :: rest =>
      match rest with
      | [] => F h (block_words b) ll true
      | _ :: _ =>
          compress_blocks
            (F h (block_words b) (Z.of_nat ((i + 1) * bb)) false) (S i) rest ll
      end
  end.

(** [BLAKE2b(d, ll, kk = 0, nn)]. *)
Definition BLAKE2b (msg : bytes) (nn : nat) : bytes :=
  let h0 := upd IV 0 (Z.lxor (get IV 0)
                        (Z.lxor 0x01010000 (Z.lxor (Z.shiftl 0 8) (Z.of_nat nn)))) in
  let h := compress_blocks h0 0 (blocks (dd (length msg)) (padded msg))
                           (Z.of_nat (length msg)) in
  firstn nn (flat_map le_bytes h).

End Rfc7693.

(* ------------------------------------------------------------------ *)
(** ** [hexdigest()] *)

Module Hex.
Local Open Scope N_scope.

Definition Py_hexdigits : str := lit "0123456789abcdef".

Definition hexdigit (i : N) : codepoint := nth (N.to_nat i) Py_hexdigits cp_nul.

(** [_Py_strhex]: two table look-ups per byte, high nibble first. *)
Definition strhex (data : bytes) : str :=
  flat_map (fun b => let c := Byte.to_N b in
                     [hexdigit (N.shiftr c 4); hexdigit (N.land c 0x0f)]) data.

(** Reference: lowercase base-16 numeral, two digits per byte. *)
Definition digit_char (d : N) : codepoint :=
  if d <? 10 then chr (48 + d) (* '0' + d *) else chr (97 + (d - 10)) (* 'a' + d - 10 *).

Definition hex_lower (data : bytes) : str :=
  flat_map (fun b => let n := Byte.to_N b in
                     [digit_char (n / 16); digit_char (n mod 16)]) data.

Definition is_lower_hex (c : codepoint) : bool :=
  let n := ord c in
  ((48 <=? n) && (n <=? 57)) || ((97 <=? n) && (n <=? 102)).

End Hex.

Definition hexdigest (st : Blake2b.blake2b_state) : str :=
  Hex.strhex (Blake2b.digest st).

(* ------------------------------------------------------------------ *)
(** ** The script: [CONTAINERS], [h32] *)

Definition CONTAINERS : list str :=
  [ lit "C.Messenger";
    lit "C.Jobs";
    lit "C.Office";
    lit "C.Policy";
    lit "C.Runner" ].

(** [def h32(s): return blake2b(s.encode(), digest_size=16).hexdigest()] *)
Definition h32 (s : str) : result str :=
  data <- Utf8.encode s ;;
  st <- Blake2b.blake2b data 16 ;;
  Ok (hexdigest st).

(** The hash pipeline in the specification's words. *)
Definition h32_reference (s : str) : option str :=
  match Rfc3629.utf8 (map ord s) with
  | Some data => Some (Hex.hex_lower (Rfc7693.BLAKE2b data 16))
  | None => None
  end.

Definition returned {A} (r : result A) : option A :=
  match r with Ok a => Some a | Raise _ => None end.

(* ------------------------------------------------------------------ *)
(** ** [dict] and the comprehension *)

(** A [dict] keeps its items in insertion order; assigning to a key that is
    present replaces the value in place. *)
Definition dict (V : Type) : Type := list (str * V).

Fixpoint dict_setitem {V} (d : dict V) (k : str) (v : V) : dict V :=
  match d with
  | [] => [(k, v)]
  | (k', v') :: rest =>
      if str_eqb k' k then (k', v) :: rest
      else (k', v') :: dict_setitem rest k v
  end.

Definition keys {V} (d : dict V) : list str := map fst d.
Definition values {V} (d : dict V) : list V := map snd d.

Fixpoint dict_get {V} (d : dict V) (k : str) : option V :=
  match d with
  | [] => None
  | (k', v) :: rest => if str_eqb k' k then Some v else dict_get rest k
  end.

(** [{ name: h32(name) for name in names }], accumulating into [acc]. *)
Fixpoint dict_comp (names : list str) (acc : dict str) : result (dict str) :=
  match names with
  | [] => Ok acc
  | name :: rest =>
      v <- h32 name ;;
      dict_comp rest (dict_setitem acc name v)
  end.

(** [out = { name: h32(name) for name in CONTAINERS }] *)
Definition out : result (dict str) := dict_comp CONTAINERS [].

(* ------------------------------------------------------------------ *)
(** ** [json.dump(out, sys.stdout, indent=2)] *)

Module Json.
Local Open Scope N_scope.

(** The objects the encoder meets here: strings and dictionaries with
    string keys. *)
#[local] Set Warnings "-register-all".
Inductive pyobj : Type :=
| PyStr (s : str)
| PyDict (items : list (str * pyobj)).

Definition quote : codepoint := chr 34.
Definition backslash : codepoint := chr 92.

(** ['{0:04x}'.format(n)] for [n < 0x10000]. *)
Definition format_04x (n : N) : str :=
  map (fun k => Hex.hexdigit ((n / 16 ^ k) mod 16)) [3; 2; 1; 0].

(** [ESCAPE_DCT]: the short escapes, and [\u00XX] for the other control
    characters. *)
Definition ESCAPE_DCT (n : N) : option str :=
  if n =? 92 then Some [backslash; backslash]
  else if n =? 34 then Some [backslash; quote]
  else if n =? 8 then Some (backslash :: lit "b")
  else if n =? 12 then Some (backslash :: lit "f")
  else if n =? 10 then Some (backslash :: lit "n")
  else if n =? 13 then Some (backslash :: lit "r")
  else if n =? 9 then Some (backslash :: lit "t")
  else if n <? 0x20 then Some (backslash :: lit "u" ++ format_04x n)
  else None.

(** [ESCAPE_ASCII]: a backslash, a double quote, or anything outside the
    printable ASCII range from space to tilde. *)
Definition ESCAPE_ASCII (n : N) : bool :=
  (n =? 92) || (n =? 34) || negb ((0x20 <=? n) && (n <=? 0x7e)).

(** The [replace] callback of [py_encode_basestring_ascii]. *)
Definition replace (c : codepoint) : str :=
  let n := ord c in
  match ESCAPE_DCT n with
  | Some e => e
  | None =>
      if n <? 0x10000 then backslash :: lit "u" ++ format_04x n
      else
        let n := n - 0x10000 in
        let s1 := N.lor 0xd800 (N.land (N.shiftr n 10) 0x3ff) in
        let s2 := N.lor 0xdc00 (N.land n 0x3ff) in
        (backslash :: lit "u" ++ format_04x s1) ++
        (backslash :: lit "u" ++ format_04x s2)
  end.

Definition encode_basestring_ascii (s : str) : str :=
  [quote] ++ flat_map (fun c => if ESCAPE_ASCII (ord c) then replace c else [c]) s
          ++ [quote].

Definition str_mul (s : str) (n : nat) : str := concat (repeat s n).

Section Iterencode.
(** Closure variables of [_make_iterencode]. *)
Variable _indent : option str.
Variable _key_separator : str.
Variable _item_separator : str.

Definition _encoder := encode_basestring_ascii.

Section Items.
(** The [for key, value in items] loop of [_iterencode_dict]; [chunks]
    yields the chunks of a value at the current level. *)
Variable chunks : pyobj -> list str.
Variable item_separator : str.

Fixpoint _iterencode_dict_items (items : list (str * pyobj)) (first : bool)
  : list str :=
  match items with
  | [] => []
  | (key, value) :: rest =>
      (if first then [] else [item_separator]) ++
      [_encoder key; _key_separator] ++
      chunks value ++
      _iterencode_dict_items rest false
  end.
End Items.

(** [_iterencode] / [_iterencode_dict]: the chunks the generator yields,
    in order. *)
Fixpoint _iterencode (o : pyobj) (_current_indent_level : nat) : list str :=
  match o with
  | PyStr s => [_encoder s]
  | PyDict dct =>
      match dct with
      | [] => [lit "{}"]
      | _ :: _ =>
          let level := match _indent with
                       | Some _ => S _current_indent_level
                       | None => _current_indent_level
                       end in
          let newline_indent :=
            match _indent with
            | Some ind => Some (lit (String "010" EmptyString) ++ str_mul ind level)
            | None => None
            end in
          let item_separator :=
            match newline_indent with
            | Some ni => _item_separator ++ ni
            | None => _item_separator
            end in
          [lit "{"] ++
          match newline_indent with Some ni => [ni] | None => [] end ++
          _iterencode_dict_items (fun value => _iterencode value level)
                                 item_separator dct true ++
          match _indent with
          | Some ind =>
              [lit (String "010" EmptyString) ++ str_mul ind _current_indent_level]
          | None => []
          end ++
          [lit "}"]
      end
  end.
End Iterencode.

(** [JSONEncoder(indent=indent).iterencode(obj)]: an integer indent becomes
    that many spaces, the item separator is [','] when an indent is given
    and [', '] otherwise, the key separator is [': ']. *)
Definition iterencode (obj : pyobj) (indent : option nat) : list str :=
  _iterencode
    (option_map (fun n => str_mul (lit " ") n) indent)
    (lit ": ")
    (match indent with Some _ => lit "," | None => lit ", " end)
    obj 0.

End Json.

(* ------------------------------------------------------------------ *)
(** ** [sys.stdout] and the run of the script *)

(** What a run of the interpreter could look at: the script imports [sys]
    and could read [sys.argv], the environment, standard input or files.
    What a run leaves behind: the bytes on standard output and, when an
    exception escapes the module body, that exception. *)
Record world : Type := mk_world {
  argv : list str;
  environ : list (str * str);
  stdin : bytes;
  files : list (str * bytes)
}.

Record outcome : Type := mk_outcome {
  stdout : bytes;               (* the bytes written to standard output *)
  uncaught : option exn         (* [None]: normal termination, status 0 *)
}.

(** [sys.stdout.write(chunk)]: the text stream encodes the chunk and appends
    it to what was written before.  The stream is the interpreter's, with
    its defaults on POSIX: UTF-8, strict, line feeds written as they are. *)
Definition stdout_write (written : bytes) (chunk : str) : result bytes :=
  b <- Utf8.encode chunk ;; Ok (written ++ b).

(** [for chunk in iterable: fp.write(chunk)] *)
Fixpoint write_chunks (chunks : list str) (written : bytes) : outcome :=
  match chunks with
  | [] => mk_outcome written None
  | chunk :: rest =>
      match stdout_write written chunk with
      | Ok written' => write_chunks rest written'
      | Raise e => mk_outcome written (Some e)
      end
  end.

Definition json_dump (obj : Json.pyobj) (indent : option nat) (written : bytes)
  : outcome :=
  write_chunks (Json.iterencode obj indent) written.

Definition as_pyobj (d : dict str) : Json.pyobj :=
  Json.PyDict (map (fun kv => (fst kv, Json.PyStr (snd kv))) d).

(** The module body: the comprehension, then the dump.  No statement of the
    script reads [w]. *)
Definition main (w : world) : outcome :=
  match out with
  | Raise e => mk_outcome [] (Some e)
  | Ok d => json_dump (as_pyobj d) (Some 2%nat) []
  end.

(** Reference: the mapping printed as indented text, one member per line,
    each nesting level indented by [width] more spaces. *)
Module Pretty.
Import Json.

Definition newline : codepoint := chr 10.
Definition spaces (n : nat) : str := repeat (chr 32) n.

Fixpoint join (sep : str) (l : list str) : str :=
  match l with
  | [] => []
  | x :: rest =>
      match rest with
      | [] => x
      | _ :: _ => x ++ sep ++ join sep rest
      end
  end.

Fixpoint render (width depth : nat) (o : pyobj) : str :=
  match o with
  | PyStr s => encode_basestring_ascii s
  | PyDict [] => lit "{}"
  | PyDict members =>
      lit "{" ++ [newline] ++
      join (lit "," ++ [newline])
           (map (fun kv => match kv with
                           | (k, v) =>
                               spaces (width * S depth) ++
                               encode_basestring_ascii k ++ lit ": " ++
                               render width (S depth) v
                           end) members) ++
      [newline] ++ spaces (width * depth) ++ lit "}"
  end.

(** The text as bytes: every character of the rendering is ASCII. *)
Definition ascii_bytes (s : str) : bytes := map (fun c => byte_of_N (ord c)) s.

End Pretty.

(* ------------------------------------------------------------------ *)
(** ** Predicates used in the statements *)

Definition no_surrogate (s : str) : Prop :=
  Forall (fun c => Utf8.is_surrogate (ord c) = false) s.

Definition is_ascii (s : str) : Prop := Forall (fun c => (ord c < 128)%N) s.

Definition hex32 (d : str) : Prop :=
  length d = 32%nat /\ Forall (fun c => Hex.is_lower_hex c = true) d.

(** The keys of a dict after an assignment to [k]: unchanged when [k] is a
    key already, [k] appended otherwise. *)
Definition add_key (ks : list str) (k : str) : list str :=
  if existsb (fun k' => str_eqb k' k) ks then ks else ks ++ [k].

(** Pairwise distinct strings, decided. *)
Fixpoint distinctb (l : list str) : bool :=
  match l with
  | [] => true
  | x :: rest => negb (existsb (str_eqb x) rest) && distinctb rest
  end.

(** The identifiers of the five containers, in the order of [CONTAINERS]. *)
Definition container_ids : list str :=
  [ lit "96fc4e7e0691a83b54577e08f7b58c0b";
    lit "59a717385c7f55c7c32d6e89a30a9e98";
    lit "d1af0c6508502de08928e448488b7b40";
    lit "f1577812c9531ccd2a584e6c01cea5b1";
    lit "86e898b43e21a950d10bc3aacaf953e6" ].

(** The document of a flat mapping written out character by character: an
    opening brace, one member per line behind two spaces, a comma after
    every member but the last, a closing brace on its own line.  Keys and
    values are put between double quotes as they are. *)
Definition member_line (kv : str * str) : str :=
  lit "  " ++ [Json.quote] ++ fst kv ++ [Json.quote] ++ lit ": " ++
  [Json.quote] ++ snd kv ++ [Json.quote].

Definition flat_document (members : list (str * str)) : str :=
  lit "{" ++ [Pretty.newline] ++
  Pretty.join (lit "," ++ [Pretty.newline]) (map member_line members) ++
  [Pretty.newline] ++ lit "}".

(** The lines of a byte stream (split at every line feed). *)
Fixpoint lines (data : bytes) : list bytes :=
  match data with
  | [] => [[]]
  | b :: rest =>
      if Byte.eqb b "010"%byte then [] :: lines rest
      else match lines rest with
           | [] => [[b]]
           | l :: ls => (b :: l) :: ls
           end
  end.

Module Blake2bInv.
Import W64 Blake2b.
Local Open Scope Z_scope.

(** The two counter words hold the 128-bit offset [c]. *)
Definition counter_is (st : blake2b_state) (c : Z) : Prop :=
  t st = (c mod 2 ^ 64, (c / 2 ^ 64) mod 2 ^ 64).

(** A state between two blocks: nothing buffered, [i] blocks absorbed. *)
Record ready (st : blake2b_state) (i : nat) : Prop := mk_ready {
  ready_buf : buf st = [];
  ready_h : length (h st) = 8%nat;
  ready_t : counter_is st (Z.of_nat (i * BLOCKBYTES));
  ready_f : f st = (0, 0);
  ready_last : last_node st = false
}.

(** The loop followed by [blake2b_final]. *)
Definition absorb (n : nat) (st : blake2b_state) (input : bytes) : bytes :=
  let '(st2, rest) := update_loop n st input in
  blake2b_final (set_buf st2 (buf st2 ++ rest)).

(** The state built from the parameter block, checked against the RFC's
    initialization for one digest size. *)
Definition init_check (n : N) : bool :=
  let nn := N.to_nat n in
  let st := blake2b_init_param (blake2b_param nn) in
  (nn =? 0)%nat ||
  ((outlen st =? nn)%nat &&
   forallb (fun p => fst p =? snd p)
     (combine (h st)
        (upd Rfc7693.IV 0
           (Z.lxor (get Rfc7693.IV 0)
              (Z.lxor 0x01010000 (Z.lxor (Z.shiftl 0 8) (Z.of_nat nn))))))).

End Blake2bInv.

(* ------------------------------------------------------------------ *)
(** ** Inverses used in the injectivity proofs *)

(** Reading back the first character of a UTF-8 byte sequence: the lead
    byte gives the length, the payload bits give the number. *)
Definition utf8_first (data : bytes) : option (N * bytes) :=
  match data with
  | [] => None
  | b0 :: r0 =>
      let n0 := Byte.to_N b0 in
      if (n0 <? 0x80)%N then Some (n0, r0)
      else
        match r0 with
        | [] => None
        | b1 :: r1 =>
            let n1 := (Byte.to_N b1 - 128)%N in
            if (n0 <? 0xE0)%N then Some (((n0 - 192) * 64 + n1)%N, r1)
            else
              match r1 with
              | [] => None
              | b2 :: r2 =>
                  let n2 := (Byte.to_N b2 - 128)%N in
                  if (n0 <? 0xF0)%N then
                    Some (((n0 - 224) * 4096 + n1 * 64 + n2)%N, r2)
                  else
                    match r2 with
                    | [] => None
                    | b3 :: r3 =>
                        let n3 := (Byte.to_N b3 - 128)%N in
                        Some (((n0 - 240) * 262144 + n1 * 4096 + n2 * 64 + n3)%N, r3)
                    end
              end
        end
  end.

(** The value of a hexadecimal digit character. *)
Definition unhex_digit (c : codepoint) : N :=
  let n := ord c in
  if (n <? 58)%N then (n - 48)%N else (n - 87)%N.

Definition unhex_pair (hi lo : codepoint) : byte :=
  byte_of_N (16 * unhex_digit hi + unhex_digit lo).

(* ------------------------------------------------------------------ *)
(** ** The layout of the document, line by line *)

(** A character of a JSON document outside its line breaks: printable
    ASCII, from space to tilde. *)
Definition printable (s : str) : Prop :=
  Forall (fun c => (0x20 <= ord c <= 0x7e)%N) s.

(** The text of one member of a mapping of strings at nesting level 1. *)
Definition json_member (kv : str * str) : str :=
  lit "  " ++ Json.encode_basestring_ascii (fst kv) ++ lit ": " ++
  Json.encode_basestring_ascii (snd kv).

(** A comma after every text but the last. *)
Fixpoint with_commas (l : list str) : list str :=
  match l with
  | [] => []
  | x :: rest =>
      match rest with
      | [] => [x]
      | _ :: _ => (x ++ lit ",") :: with_commas rest
      end
  end.

(** Reading back the first character of the body of an escaped string: a
    character that stands for itself, a short escape, a [\uXXXX] escape, or
    the pair of escapes of a character above U+FFFF. *)
Definition hex4 (a b c d : codepoint) : N :=
  (((unhex_digit a * 16 + unhex_digit b) * 16 + unhex_digit c) * 16 + unhex_digit d)%N.

Definition unescape_first (text : str) : option (N * str) :=
  match text with
  | [] => None
  | c :: r =>
      if (ord c =? 92)%N then
        match r with
        | [] => None
        | e :: r1 =>
            let n := ord e in
            if (n =? 117)%N then
              match r1 with
              | a :: b :: c' :: d :: r2 =>
                  let u := hex4 a b c' d in
                  if ((0xD800 <=? u) && (u <=? 0xDBFF))%N then
                    match r2 with
                    | _ :: _ :: a2 :: b2 :: c2 :: d2 :: r3 =>
                        Some ((0x10000 + (u - 0xD800) * 1024 +
                               (hex4 a2 b2 c2 d2 - 0xDC00))%N, r3)
                    | _ => None
                    end
                  else Some (u, r2)
              | _ => None
              end
            else if (n =? 98)%N then Some (8%N, r1)
            else if (n =? 102)%N then Some (12%N, r1)
            else if (n =? 110)%N then Some (10%N, r1)
            else if (n =? 114)%N then Some (13%N, r1)
            else if (n =? 116)%N then Some (9%N, r1)
            else Some (n, r1)
        end
      else Some (ord c, r)
  end.

(** The body of an escaped string, between the quotes. *)
Definition escaped_body (s : str) : str :=
  flat_map (fun c => if Json.ESCAPE_ASCII (ord c) then Json.replace c else [c]) s.

(* ------------------------------------------------------------------ *)
(** ** The standard output stream and the environment *)

(** The 'utf-16-le' codec, strict: two bytes per code unit, low byte first;
    a character above U+FFFF is written as its surrogate pair; a surrogate
    in the text raises UnicodeEncodeError at its position. *)
Module Utf16le.
Local Open Scope N_scope.

Definition unit_bytes (u : N) : bytes := [byte_of_N (N.land u 0xff); byte_of_N (N.shiftr u 8)].

Definition encode_char (ch : N) : option bytes :=
  if ch <? 0x10000 then
    if Utf8.is_surrogate ch then None else Some (unit_bytes ch)
  else
    let ch2 := ch - 0x10000 in
    Some (unit_bytes (N.lor 0xd800 (N.shiftr ch2 10)) ++
          unit_bytes (N.lor 0xdc00 (N.land ch2 0x3ff))).

Fixpoint encode_from (i : nat) (s : str) : result bytes :=
  match s with
  | [] => Ok []
  | c :: rest =>
      match encode_char (ord c) with
      | None => Raise (UnicodeEncodeError i)
      | Some bs => tl <- encode_from (S i) rest ;; Ok (bs ++ tl)
      end
  end.

Definition encode (s : str) : result bytes := encode_from 0 s.

End Utf16le.

(** [sys.stdout] as the interpreter sets it up before the first line of the
    script runs, from the environment ([PYTHONIOENCODING], the locale, the
    platform): a text stream with an incremental encoder.  A write hands the
    chunk to the encoder, which returns the bytes to append and its next
    state, or raises. *)
Record text_stream : Type := mk_stream {
  stream_state : Type;
  stream_init : stream_state;
  stream_write : stream_state -> str -> result (bytes * stream_state)
}.

(** The default on POSIX (UTF-8, strict): the stream of [stdout_write]. *)
Definition utf8_stream : text_stream :=
  mk_stream tt (fun _ chunk => b <- Utf8.encode chunk ;; Ok (b, tt)).


(** [for chunk in iterable: fp.write(chunk)] on a stream. *)
Fixpoint write_to (ts : text_stream) (chunks : list str)
         (st : stream_state ts) (written : bytes) : outcome :=
  match chunks with
  | [] => mk_outcome written None
  | chunk :: rest =>
      match stream_write ts st chunk with
      | Ok (b, st') => write_to ts rest st' (written ++ b)
      | Raise e => mk_outcome written (Some e)
      end
  end.

(** A run of the interpreter on the script: the inputs the script could
    read, and the standard output stream the environment gave it. *)
Record process : Type := mk_process {
  inputs : world;
  stdout_stream : text_stream
}.




(** The chunks the module body passes to [sys.stdout.write], in order. *)
Definition script_chunks : result (list str) :=
  d <- out ;; Ok (Json.iterencode (as_pyobj d) (Some 2%nat)).

(** The module body run in a process. *)
Definition run (p : process) : outcome :=
  match script_chunks with
  | Raise e => mk_outcome [] (Some e)
  | Ok chunks =>
      write_to (stdout_stream p) chunks (stream_init (stdout_stream p)) []
  end.

(* ------------------------------------------------------------------ *)
(** ** Effects: the state of the interpreter around a call *)

(** What a call could leave behind: bytes on standard output, and objects
    that stay alive (here: hash objects).  A hash object is referred to by
    its position in [objects]. *)
Record pystate : Type := mk_pystate {
  written : bytes;
  objects : list Blake2b.blake2b_state
}.

(** Code with effects: a result or an exception, and the state after. *)
Definition effect (A : Type) : Type := pystate -> result A * pystate.

Definition ret {A} (a : A) : effect A := fun sigma => (Ok a, sigma).

Definition then_ {A B} (m : effect A) (k : A -> effect B) : effect B :=
  fun sigma =>
    match m sigma with
    | (Ok a, sigma') => k a sigma'
    | (Raise e, sigma') => (Raise e, sigma')
    end.

(** [s.encode()]: a method of an immutable string; it returns a new bytes
    value or raises. *)
Definition str_encode (s : str) : effect bytes :=
  fun sigma => (Utf8.encode s, sigma).

(** [blake2b(data, digest_size=n)]: allocates a hash object that has
    absorbed [data]. *)
Definition blake2b_new (data : bytes) (digest_size : nat) : effect nat :=
  fun sigma =>
    match Blake2b.blake2b data digest_size with
    | Ok st =>
        (Ok (length (objects sigma)),
         mk_pystate (written sigma) (objects sigma ++ [st]))
    | Raise e => (Raise e, sigma)
    end.

(** [h.hexdigest()]: finalises a copy of the state, the object itself is
    left as it is. *)
Definition blake2b_hexdigest (h : nat) : effect str :=
  fun sigma =>
    match nth_error (objects sigma) h with
    | Some st => (Ok (hexdigest st), sigma)
    | None => (Raise ValueError, sigma)
    end.

(** The last reference to the temporary goes away when the expression has
    been evaluated: the object is freed. *)
Definition release (h : nat) : effect unit :=
  fun sigma => (Ok tt, mk_pystate (written sigma) (firstn h (objects sigma))).

(** The body of [h32], statement by statement, on the interpreter state. *)
Definition h32_call (s : str) : effect str :=
  then_ (str_encode s) (fun data =>
  then_ (blake2b_new data 16) (fun h =>
  then_ (blake2b_hexdigest h) (fun d =>
  then_ (release h) (fun _ =>
  ret d)))).

(* ------------------------------------------------------------------ *)
(** ** RFC 7693, sections 2.1 and 3: the mixing function, the compression
    function and the hash, as the RFC writes them *)

Module Rfc7693Text.
Local Open Scope Z_scope.

(** Parameters of BLAKE2b (section 2.1). *)
Definition w : Z := 64.
Definition r : nat := 12.
Definition R1 : Z := 32.
Definition R2 : Z := 24.
Definition R3 : Z := 16.
Definition R4 : Z := 63.

(** [(x >>> n) = (x >> n) ^ (x << (w - n)) mod 2^w]. *)
Definition rotr (x n : Z) : Z :=
  Z.lxor (Z.shiftr x n) (Z.shiftl x (w - n) mod 2 ^ w).

(** [v[i]] and [v[i] := x] on a vector of words. *)
Definition at_ (v : list Z) (i : nat) : Z := nth i v 0.
Definition put (v : list Z) (i : nat) (x : Z) : list Z :=
  firstn i v ++ x :: skipn (S i) v.

(** The three kinds of statement of [G] (section 3.1). *)
Definition add3 (v : list Z) (a b : nat) (x : Z) : list Z :=
  put v a ((at_ v a + at_ v b + x) mod 2 ^ w).
Definition add2 (v : list Z) (c d : nat) : list Z :=
  put v c ((at_ v c + at_ v d) mod 2 ^ w).
Definition xor_rotr (v : list Z) (d a : nat) (n : Z) : list Z :=
  put v d (rotr (Z.lxor (at_ v d) (at_ v a)) n).

Definition G (v : list Z) (a b c d : nat) (x y : Z) : list Z :=
  let v := add3 v a b x in
  let v := xor_rotr v d a R1 in
  let v := add2 v c d in
  let v := xor_rotr v b c R2 in
  let v := add3 v a b y in
  let v := xor_rotr v d a R3 in
  let v := add2 v c d in
  let v := xor_rotr v b c R4 in
  v.

(** The body of the loop of [F]: one round with the schedule [s]. *)
Definition round (m : list Z) (s : list nat) (v : list Z) : list Z :=
  let ms (i : nat) := at_ m (nth i s 0%nat) in
  let v := G v 0 4  8 12 (ms 0%nat) (ms 1%nat) in
  let v := G v 1 5  9 13 (ms 2%nat) (ms 3%nat) in
  let v := G v 2 6 10 14 (ms 4%nat) (ms 5%nat) in
  let v := G v 3 7 11 15 (ms 6%nat) (ms 7%nat) in
  let v := G v 0 5 10 15 (ms 8%nat) (ms 9%nat) in
  let v := G v 1 6 11 12 (ms 10%nat) (ms 11%nat) in
  let v := G v 2 7  8 13 (ms 12%nat) (ms 13%nat) in
  let v := G v 3 4  9 14 (ms 14%nat) (ms 15%nat) in
  v.

(** [F( h[0..7], m[0..15], t, f )] (section 3.2). *)
Definition F (h : list Z) (m : list Z) (t : Z) (f : bool) : list Z :=
  let v := firstn 8 h ++ firstn 8 Rfc7693.IV in
  let v := put v 12 (Z.lxor (at_ v 12) (t mod 2 ^ w)) in
  let v := put v 13 (Z.lxor (at_ v 13) (Z.shiftr t w)) in
  let v := if f then put v 14 (Z.lxor (at_ v 14) (2 ^ w - 1)) else v in
  let v := fold_left
             (fun v i => round m (nth (i mod 10) Rfc7693.SIGMA []) v)
             (seq 0 r) v in
  map (fun i => Z.lxor (Z.lxor (at_ h i) (at_ v i)) (at_ v (i + 8))) (seq 0 8).

(** [BLAKE2( d[0..dd-1], ll, kk = 0, nn )] (section 3.3): every block but
    the last is compressed with the number of bytes fed so far, the last
    one with the length of the message and the final flag. *)
Definition BLAKE2b (msg : bytes) (nn : nat) : bytes :=
  let ll := length msg in
  let dd := Rfc7693.dd ll in
  let d := Rfc7693.blocks dd (Rfc7693.padded msg) in
  let h := put Rfc7693.IV 0
               (Z.lxor (at_ Rfc7693.IV 0)
                  (Z.lxor 0x01010000 (Z.lxor (Z.shiftl 0 8) (Z.of_nat nn)))) in
  let h := fold_left
             (fun h i => F h (Rfc7693.block_words (nth i d []))
                           (Z.of_nat ((i + 1) * Rfc7693.bb)) false)
             (seq 0 (dd - 1)) h in
  let h := F h (Rfc7693.block_words (nth (dd - 1) d [])) (Z.of_nat ll) true in
  firstn nn (flat_map Rfc7693.le_bytes h).

End Rfc7693Text.

(** A 64-bit word, and a vector of [n] of them. *)
Definition word (x : Z) : Prop := (0 <= x < 2 ^ 64)%Z.
Definition words (n : nat) (v : list Z) : Prop := length v = n /\ Forall word v.

(** The statements of [G] in the C code, one by one. *)
Module Blake2bSteps.
Import W64.

Definition add3 (v : list Z) (a b : nat) (x : Z) : list Z :=
  upd v a (add (add (get v a) (get v b)) x).
Definition add2 (v : list Z) (c d : nat) : list Z :=
  upd v c (add (get v c) (get v d)).
Definition xor_rotr (v : list Z) (d a : nat) (n : Z) : list Z :=
  upd v d (rotr (Z.lxor (get v d) (get v a)) n).

End Blake2bSteps.

(* ================================================================== *)
(** * Properties *)

(** ** Bytes and code points *)

Lemma byte_of_N_to_N (n : N) : Byte.to_N (byte_of_N n) = (n mod 256)%N.
Proof.
  unfold byte_of_N.
  destruct (Byte.of_N (n mod 256)) as [b|] eqn:E.
  - now apply Byte.to_of_N.
  - apply Byte.of_N_None_iff in E.
    pose proof (N.mod_lt n 256 ltac:(discriminate)). lia.
Qed.

Lemma byte_of_N_small (n : N) : (n < 256)%N -> Byte.to_N (byte_of_N n) = n.
Proof. intros H. rewrite byte_of_N_to_N. now apply N.mod_small. Qed.

Lemma byte_of_to_N (b : byte) : byte_of_N (Byte.to_N b) = b.
Proof.
  unfold byte_of_N.
  rewrite N.mod_small, Byte.of_to_N; [reflexivity|].
  pose proof (Byte.to_N_bounded b). lia.
Qed.

Lemma Z_of_byte_range (b : byte) : (0 <= Z_of_byte b < 256)%Z.
Proof. unfold Z_of_byte. pose proof (Byte.to_N_bounded b). lia. Qed.

Lemma ord_lt (c : codepoint) : (ord c < 0x110000)%N.
Proof. destruct c as [n H]. now apply N.ltb_lt. Qed.

(** Two code points with the same number are equal: the range proof is an
    equality of booleans. *)
Lemma cp_ext (a b : codepoint) : ord a = ord b -> a = b.
Proof.
  destruct a as [n Hn], b as [m Hm]. simpl. intros ->.
  f_equal. apply UIP_dec. apply Bool.bool_dec.
Qed.

Lemma chr_ord (n : N) : (n < 0x110000)%N -> ord (chr n) = n.
Proof.
  intros H. unfold chr, chr_opt.
  generalize (eq_refl ((n <? 0x110000)%N)).
  generalize ((n <? 0x110000)%N) at 2 3.
  intros [] E; [reflexivity|].
  apply N.ltb_ge in E. lia.
Qed.

Lemma str_ext (a b : str) : map ord a = map ord b -> a = b.
Proof.
  revert b. induction a as [|x a IH]; intros [|y b]; simpl; try discriminate; auto.
  intros H. injection H as H1 H2. f_equal; [now apply cp_ext | now apply IH].
Qed.

Lemma str_eqb_eq (a b : str) : str_eqb a b = true <-> a = b.
Proof.
  unfold str_eqb. revert b.
  induction a as [|x a IH]; intros [|y b]; simpl; split; intros H;
    try reflexivity; try discriminate.
  - apply andb_true_iff in H as [Hl H]. apply andb_true_iff in H as [Hx H].
    apply N.eqb_eq in Hx. f_equal; [now apply cp_ext|].
    apply IH. now rewrite Hl, H.
  - injection H as -> ->.
    rewrite N.eqb_refl. simpl.
    specialize (IH b). destruct IH as [_ IH]. specialize (IH eq_refl).
    exact IH.
Qed.

Lemma str_eqb_refl (a : str) : str_eqb a a = true.
Proof. now apply str_eqb_eq. Qed.

(** Checking a boolean property on all numbers below a bound. *)
Lemma N_forall_below (f : N -> bool) (n : nat) :
  forallb f (map N.of_nat (seq 0 n)) = true ->
  forall y, (y < N.of_nat n)%N -> f y = true.
Proof.
  intros H y Hy. rewrite forallb_forall in H. apply H.
  apply in_map_iff. exists (N.to_nat y). split; [lia|].
  apply in_seq. lia.
Qed.

(** ** The UTF-8 encoder against RFC 3629 *)

Section Utf8Bits.
Local Open Scope N_scope.

Lemma lor_0x80 y : y < 64 -> N.lor 0x80 y = 128 + y.
Proof.
  intros H. apply N.eqb_eq.
  apply (N_forall_below (fun y => N.lor 0x80 y =? 128 + y) 64); [now vm_compute|exact H].
Qed.

Lemma lor_0xc0 y : y < 32 -> N.lor 0xc0 y = 192 + y.
Proof.
  intros H. apply N.eqb_eq.
  apply (N_forall_below (fun y => N.lor 0xc0 y =? 192 + y) 32); [now vm_compute|exact H].
Qed.

Lemma lor_0xe0 y : y < 16 -> N.lor 0xe0 y = 224 + y.
Proof.
  intros H. apply N.eqb_eq.
  apply (N_forall_below (fun y => N.lor 0xe0 y =? 224 + y) 16); [now vm_compute|exact H].
Qed.

Lemma lor_0xf0 y : y < 8 -> N.lor 0xf0 y = 240 + y.
Proof.
  intros H. apply N.eqb_eq.
  apply (N_forall_below (fun y => N.lor 0xf0 y =? 240 + y) 8); [now vm_compute|exact H].
Qed.

Lemma land_0x3f x : N.land x 0x3f = x mod 64.
Proof. change 0x3f with (N.ones 6). now rewrite N.land_ones. Qed.

Lemma continuation_byte x : N.lor 0x80 (N.land x 0x3f) = 128 + x mod 64.
Proof.
  rewrite land_0x3f. apply lor_0x80. now apply N.mod_lt.
Qed.

Lemma shiftr_6 x : N.shiftr x 6 = x / 64.
Proof. now rewrite N.shiftr_div_pow2. Qed.
Lemma shiftr_12 x : N.shiftr x 12 = x / 4096.
Proof. now rewrite N.shiftr_div_pow2. Qed.
Lemma shiftr_18 x : N.shiftr x 18 = x / 262144.
Proof. now rewrite N.shiftr_div_pow2. Qed.

Lemma encode_char_rfc (ch : N) :
  ch < 0x110000 ->
  Utf8.encode_char ch =
  if Rfc3629.scalar_valueb ch then Some (map byte_of_N (Rfc3629.octets ch))
  else None.
Proof.
  intros Hch.
  unfold Utf8.encode_char, Rfc3629.scalar_valueb, Rfc3629.octets, Utf8.is_surrogate.
  rewrite !continuation_byte, shiftr_6, shiftr_12, shiftr_18.
  destruct (N.ltb_spec ch 0x80) as [H1|H1].
  { replace (ch <? 0xD800) with true by (symmetry; apply N.ltb_lt; lia).
    replace (ch <=? 0x7F) with true by (symmetry; apply N.leb_le; lia).
    reflexivity. }
  replace (ch <=? 0x7F) with false by (symmetry; apply N.leb_gt; lia).
  destruct (N.ltb_spec ch 0x800) as [H2|H2].
  { rewrite lor_0xc0 by (apply N.Div0.div_lt_upper_bound; lia).
    replace (ch <? 0xD800) with true by (symmetry; apply N.ltb_lt; lia).
    replace (ch <=? 0x7FF) with true by (symmetry; apply N.leb_le; lia).
    reflexivity. }
  replace (ch <=? 0x7FF) with false by (symmetry; apply N.leb_gt; lia).
  destruct (N.ltb_spec ch 0x10000) as [H5|H5].
  - rewrite lor_0xe0 by (apply N.Div0.div_lt_upper_bound; lia).
    replace (ch <=? 0xFFFF) with true by (symmetry; apply N.leb_le; lia).
    replace (ch <=? 0x10FFFF) with true by (symmetry; apply N.leb_le; lia).
    destruct (N.leb_spec 0xD800 ch) as [H3|H3].
    + replace (ch <? 0xD800) with false by (symmetry; apply N.ltb_ge; lia).
      destruct (N.leb_spec ch 0xDFFF) as [H4|H4].
      * replace (0xDFFF <? ch) with false by (symmetry; apply N.ltb_ge; lia).
        reflexivity.
      * replace (0xDFFF <? ch) with true by (symmetry; apply N.ltb_lt; lia).
        reflexivity.
    + replace (ch <? 0xD800) with true by (symmetry; apply N.ltb_lt; lia).
      reflexivity.
  - rewrite lor_0xf0 by (apply N.Div0.div_lt_upper_bound; lia).
    replace (ch <=? 0xFFFF) with false by (symmetry; apply N.leb_gt; lia).
    replace (ch <=? 0x10FFFF) with true by (symmetry; apply N.leb_le; lia).
    replace (0xD800 <=? ch) with true by (symmetry; apply N.leb_le; lia).
    replace (ch <=? 0xDFFF) with false by (symmetry; apply N.leb_gt; lia).
    replace (ch <? 0xD800) with false by (symmetry; apply N.ltb_ge; lia).
    replace (0xDFFF <? ch) with true by (symmetry; apply N.ltb_lt; lia).
    reflexivity.
Qed.

End Utf8Bits.

Lemma encode_from_rfc (s : str) (i : nat) :
  returned (Utf8.encode_from i s) = Rfc3629.utf8 (map ord s).
Proof.
  revert i. induction s as [|c s IH]; intros i; simpl; [reflexivity|].
  rewrite (encode_char_rfc (ord_lt c)).
  destruct (Rfc3629.scalar_valueb (ord c)); [|reflexivity].
  rewrite <- (IH (S i)).
  destruct (Utf8.encode_from (S i) s); reflexivity.
Qed.

Lemma encode_rfc (s : str) : returned (Utf8.encode s) = Rfc3629.utf8 (map ord s).
Proof. apply encode_from_rfc. Qed.

(** The encoder fails exactly on surrogates. *)
Lemma encode_char_None (ch : N) :
  Utf8.encode_char ch = None <-> Utf8.is_surrogate ch = true.
Proof.
  unfold Utf8.encode_char, Utf8.is_surrogate.
  destruct (N.ltb_spec ch 0x80); [split; [discriminate|]|].
  { intros E. apply andb_true_iff in E as [E _]. apply N.leb_le in E. lia. }
  destruct (N.ltb_spec ch 0x800); [split; [discriminate|]|].
  { intros E. apply andb_true_iff in E as [E _]. apply N.leb_le in E. lia. }
  destruct ((0xD800 <=? ch)%N && (ch <=? 0xDFFF)%N); [tauto|].
  destruct (ch <? 0x10000)%N; split; discriminate.
Qed.

Lemma encode_from_total (s : str) (i : nat) :
  no_surrogate s -> exists data, Utf8.encode_from i s = Ok data.
Proof.
  revert i. induction s as [|c s IH]; intros i H; simpl.
  - now exists [].
  - inversion H as [|? ? Hc Hs]; subst.
    destruct (Utf8.encode_char (ord c)) as [bs|] eqn:E.
    + destruct (IH (S i) Hs) as [tl ->]. simpl. now exists (bs ++ tl).
    + apply encode_char_None in E. congruence.
Qed.

(** ** [hexdigest] against base 16 *)

Lemma strhex_hex_lower (data : bytes) : Hex.strhex data = Hex.hex_lower data.
Proof.
  unfold Hex.strhex, Hex.hex_lower.
  apply flat_map_ext. intros b.
  f_equal; [|f_equal]; apply cp_ext; destruct b; reflexivity.
Qed.

Lemma strhex_length (data : bytes) : length (Hex.strhex data) = 2 * length data.
Proof.
  unfold Hex.strhex. induction data as [|b data IH]; [reflexivity|].
  cbn [flat_map app length]. rewrite IH. lia.
Qed.

Lemma strhex_lower_hex (data : bytes) :
  Forall (fun c => Hex.is_lower_hex c = true) (Hex.strhex data).
Proof.
  unfold Hex.strhex. induction data as [|b data IH]; [constructor|].
  cbn [flat_map app].
  constructor; [|constructor; [|exact IH]]; destruct b; reflexivity.
Qed.

(** ** The streaming BLAKE2b against RFC 7693 *)

Section Blake2bRefinement.
Import W64 Blake2b Blake2bInv.
Local Open Scope Z_scope.

Lemma IV_table : Rfc7693.IV = blake2b_IV.
Proof. now vm_compute. Qed.

Lemma lor_shiftl_8 (b acc : Z) :
  0 <= b < 256 -> Z.lor b (Z.shiftl acc 8) = b + 256 * acc.
Proof.
  intros Hb.
  assert (Hland : Z.land b (Z.shiftl acc 8) = 0).
  { apply Z.bits_inj'. intros n Hn.
    rewrite Z.land_spec, Z.bits_0.
    destruct (Z.ltb_spec n 8) as [Hlt|Hge].
    - rewrite (Z.shiftl_spec_low acc 8 n Hlt). apply andb_false_r.
    - replace b with (b mod 2 ^ 8) by (apply Z.mod_small; exact Hb).
      rewrite Z.mod_pow2_bits_high; [reflexivity|lia]. }
  rewrite <- Z.lxor_lor by exact Hland.
  rewrite <- Z.add_nocarry_lxor by exact Hland.
  rewrite Z.shiftl_mul_pow2 by lia. change (2 ^ 8) with 256. lia.
Qed.

Lemma load64_le_word (p : bytes) : load64 p = Rfc7693.le_word (firstn 8 p).
Proof.
  unfold load64, Rfc7693.le_word.
  induction (firstn 8 p) as [|b l IH]; [reflexivity|].
  cbn [fold_right]. rewrite IH. apply lor_shiftl_8. apply Z_of_byte_range.
Qed.

Lemma store64_le_bytes (w : Z) : store64 w = Rfc7693.le_bytes w.
Proof.
  unfold store64, Rfc7693.le_bytes. apply map_ext. intros i.
  rewrite Z.shiftr_div_pow2 by lia.
  now rewrite Z.pow_mul_r by lia.
Qed.

Lemma block_words_load64 (block : bytes) :
  map (fun i => load64 (skipn (8 * i) block)) (seq 0 16) =
  Rfc7693.block_words block.
Proof.
  unfold Rfc7693.block_words. apply map_ext. intros i. apply load64_le_word.
Qed.

Lemma high_word (c : Z) : (c mod 2 ^ 128) / 2 ^ 64 = (c / 2 ^ 64) mod 2 ^ 64.
Proof.
  change (2 ^ 128) with (2 ^ 64 * 2 ^ 64).
  rewrite Z.rem_mul_r by lia.
  rewrite Z.mul_comm, Z.div_add by lia.
  rewrite Z.div_small by (apply Z.mod_pos_bound; lia).
  reflexivity.
Qed.

Lemma increment_counter_is (st : blake2b_state) (c inc : Z) :
  counter_is st c -> 0 <= inc < 2 ^ 64 ->
  counter_is (blake2b_increment_counter st inc) (c + inc).
Proof.
  unfold counter_is, blake2b_increment_counter, add, wrap.
  intros -> Hinc. cbn [set_t t fst snd]. 
  set (M := 2 ^ 64) in *.
  assert (HM : 0 < M) by (subst M; lia).
  pose proof (Z.mod_pos_bound c M HM) as Hr.
  pose proof (Z.div_mod c M ltac:(lia)) as Hc.
  set (r := c mod M) in *. set (q := c / M) in *.
  assert (E0 : (c + inc) mod M = (r + inc) mod M).
  { subst r. now rewrite Z.add_mod_idemp_l by lia. }
  f_equal; [now rewrite E0|].
  destruct (Z.ltb_spec ((r + inc) mod M) inc) as [Hlt|Hge].
  - (* the low word wrapped *)
    assert (E1 : (c + inc) / M = q + 1).
    { symmetry. apply (Z.div_unique (c + inc) M (q + 1) (r + inc - M)); [|lia].
      left. split; [|lia].
      destruct (Z.lt_ge_cases (r + inc) M) as [Hs|Hs]; [|lia].
      rewrite Z.mod_small in Hlt by lia. lia. }
    rewrite E1. now rewrite Z.add_mod_idemp_l by lia.
  - assert (Hs : r + inc < M).
    { destruct (Z.lt_ge_cases (r + inc) M) as [Hs|Hs]; [exact Hs|].
      assert (E : (r + inc) mod M = r + inc - M).
      { symmetry. apply (Z.mod_unique (r + inc) M 1); lia. }
      lia. }
    assert (E1 : (c + inc) / M = q).
    { symmetry. apply (Z.div_unique (c + inc) M q (r + inc)); lia. }
    rewrite E1, Z.add_0_r. now rewrite Z.mod_mod by lia.
Qed.

Lemma fold_left_ext_in {A B} (g1 g2 : A -> B -> A) (l : list B) (a : A) :
  (forall x, In x l -> forall y, g1 y x = g2 y x) ->
  fold_left g1 l a = fold_left g2 l a.
Proof.
  revert a. induction l as [|x l IH]; intros a H; [reflexivity|].
  cbn [fold_left]. rewrite (H x (or_introl eq_refl)).
  apply IH. intros z Hz. apply H. now right.
Qed.

Lemma rounds_sigma (m v : list Z) :
  fold_left (fun v r => ROUND m r v) (seq 0 12) v =
  fold_left (fun v i => mix_round m (nth (i mod 10) Rfc7693.SIGMA []) v) (seq 0 12) v.
Proof.
  apply fold_left_ext_in. intros r Hr y. unfold ROUND. f_equal.
  cbn [seq In] in Hr.
  repeat (destruct Hr as [<-|Hr]; [reflexivity|]). contradiction.
Qed.

Lemma compress_F (st : blake2b_state) (block : bytes) (c : Z) (flag : bool) :
  length (h st) = 8%nat ->
  counter_is st c ->
  f st = ((if flag then 2 ^ 64 - 1 else 0), 0) ->
  h (blake2b_compress st block) =
  Rfc7693.F (h st) (Rfc7693.block_words block) c flag.
Proof.
  intros Hlen Ht Hf.
  unfold blake2b_compress, Rfc7693.F. cbn [h set_h].
  rewrite block_words_load64, rounds_sigma, IV_table, high_word.
  rewrite Ht, Hf. cbn [fst snd].
  destruct (h st) as [|h0 [|h1 [|h2 [|h3 [|h4 [|h5 [|h6 [|h7 [|]]]]]]]]];
    try discriminate Hlen.
  set (hh := [h0; h1; h2; h3; h4; h5; h6; h7]).
  match goal with
  | |- map _ _ = map (fun i => Z.lxor (Z.lxor _ (get ?V i)) _) _ =>
      set (V2 := V)
  end.
  match goal with
  | |- map (fun i => Z.lxor (Z.lxor _ (get ?V i)) _) _ = _ =>
      set (V1 := V)
  end.
  assert (E : V1 = V2); [|now rewrite E].
  subst V1 V2. f_equal.
  subst hh. destruct flag; cbv [upd app get nth firstn blake2b_IV];
    now rewrite ?Z.lxor_0_r.
Qed.


Lemma block_words_firstn (input : bytes) :
  Rfc7693.block_words (firstn BLOCKBYTES input) = Rfc7693.block_words input.
Proof.
  unfold Rfc7693.block_words. apply map_ext_in. intros i Hi.
  apply in_seq in Hi. f_equal.
  rewrite skipn_firstn_comm, firstn_firstn. f_equal.
  unfold BLOCKBYTES. lia.
Qed.

Lemma compress_firstn (st : blake2b_state) (input : bytes) :
  blake2b_compress st (firstn BLOCKBYTES input) = blake2b_compress st input.
Proof.
  unfold blake2b_compress.
  rewrite !block_words_load64, block_words_firstn. reflexivity.
Qed.

Lemma compress_length (st : blake2b_state) (block : bytes) :
  length (h (blake2b_compress st block)) = 8%nat.
Proof. unfold blake2b_compress. cbn [h set_h]. now rewrite length_map, length_seq. Qed.

Lemma ready_step (st : blake2b_state) (i : nat) (input : bytes) :
  ready st i ->
  ready (blake2b_compress (blake2b_increment_counter st (Z.of_nat BLOCKBYTES)) input)
        (S i).
Proof.
  intros [Hb Hh Ht Hf Hl]. split.
  - exact Hb.
  - apply compress_length.
  - unfold counter_is in *.
    change (t (blake2b_compress (blake2b_increment_counter st (Z.of_nat BLOCKBYTES)) input))
      with (t (blake2b_increment_counter st (Z.of_nat BLOCKBYTES))).
    replace (Z.of_nat (S i * BLOCKBYTES))
      with (Z.of_nat (i * BLOCKBYTES) + Z.of_nat BLOCKBYTES) by lia.
    apply increment_counter_is; [exact Ht|]. unfold BLOCKBYTES. lia.
  - exact Hf.
  - exact Hl.
Qed.

Lemma step_h (st : blake2b_state) (i : nat) (input : bytes) :
  ready st i ->
  h (blake2b_compress (blake2b_increment_counter st (Z.of_nat BLOCKBYTES)) input) =
  Rfc7693.F (h st) (Rfc7693.block_words input)
            (Z.of_nat ((i + 1) * Rfc7693.bb)) false.
Proof.
  intros [Hb Hh Ht Hf Hl].
  replace (Z.of_nat ((i + 1) * Rfc7693.bb))
    with (Z.of_nat (i * BLOCKBYTES) + Z.of_nat BLOCKBYTES)
    by (unfold Rfc7693.bb, BLOCKBYTES; lia).
  change (h st) with (h (blake2b_increment_counter st (Z.of_nat BLOCKBYTES))).
  apply compress_F.
  - exact Hh.
  - apply increment_counter_is; [exact Ht|]. unfold BLOCKBYTES. lia.
  - exact Hf.
Qed.

(** [blake2b_final] on at most one block of buffered data is the last
    compression of the RFC. *)
Lemma final_F (st : blake2b_state) (i : nat) (data : bytes) :
  ready st i ->
  (length data <= BLOCKBYTES)%nat ->
  blake2b_final (set_buf st (buf st ++ data)) =
  firstn (outlen st)
    (flat_map Rfc7693.le_bytes
       (Rfc7693.F (h st)
          (Rfc7693.block_words (data ++ repeat x00 (BLOCKBYTES - length data)))
          (Z.of_nat (i * BLOCKBYTES + length data)) true)).
Proof.
  intros [Hb Hh Ht Hf Hl] Hlen.
  rewrite Hb. cbn [app].
  unfold blake2b_final.
  set (st1 := blake2b_increment_counter (set_buf st data)
                (Z.of_nat (buflen (set_buf st data)))).
  set (st2 := blake2b_set_lastblock st1).
  set (st3 := set_buf st2 (buf st2 ++ repeat x00 (BLOCKBYTES - buflen st2))).
  change (outlen (blake2b_compress st3 (buf st3))) with (outlen st).
  f_equal.
  rewrite (flat_map_ext _ _ store64_le_bytes). f_equal.
  change (buf st3) with (data ++ repeat x00 (BLOCKBYTES - length data)).
  change (h st) with (h st3).
  apply compress_F.
  - exact Hh.
  - change (t st3) with (t st1). unfold counter_is.
    replace (Z.of_nat (i * BLOCKBYTES + length data))
      with (Z.of_nat (i * BLOCKBYTES) + Z.of_nat (length data)) by lia.
    apply increment_counter_is.
    + exact Ht.
    + unfold BLOCKBYTES in Hlen. lia.
  - change (f st3) with (f st2). subst st2.
    unfold blake2b_set_lastblock. cbn [set_f f].
    change (last_node st1) with (last_node st). rewrite Hl.
    change (f st1) with (f st). now rewrite Hf.
Qed.

Lemma dd_small (ll : nat) : (ll <= 128)%nat -> Rfc7693.dd ll = 1%nat.
Proof.
  intros H. unfold Rfc7693.dd, Rfc7693.bb.
  assert ((ll + (128 - 1)) / 128 < 2)%nat.
  { apply Nat.Div0.div_lt_upper_bound. lia. }
  lia.
Qed.

Lemma dd_step (ll : nat) :
  (128 < ll)%nat -> Rfc7693.dd ll = S (Rfc7693.dd (ll - 128)).
Proof.
  intros H. unfold Rfc7693.dd, Rfc7693.bb.
  replace (ll + (128 - 1))%nat with ((ll - 128 + (128 - 1)) + 1 * 128)%nat by lia.
  rewrite Nat.div_add by lia.
  assert (1 <= (ll - 128 + (128 - 1)) / 128)%nat.
  { apply Nat.div_le_lower_bound; lia. }
  lia.
Qed.

Lemma dd_pos (ll : nat) : exists k, Rfc7693.dd ll = S k.
Proof.
  unfold Rfc7693.dd. destruct (Nat.max 1 ((ll + (Rfc7693.bb - 1)) / Rfc7693.bb)) eqn:E.
  - lia.
  - eauto.
Qed.

Lemma blocks_last (data : bytes) :
  (length data <= 128)%nat ->
  Rfc7693.blocks (Rfc7693.dd (length data)) (Rfc7693.padded data) =
  [data ++ repeat x00 (BLOCKBYTES - length data)].
Proof.
  intros H. unfold Rfc7693.padded. rewrite (dd_small H).
  cbn [Rfc7693.blocks]. unfold Rfc7693.bb, BLOCKBYTES.
  replace (1 * 128 - length data)%nat with (128 - length data)%nat by lia.
  rewrite firstn_all2; [reflexivity|].
  rewrite length_app, repeat_length. lia.
Qed.

Lemma blocks_step (data : bytes) :
  (128 < length data)%nat ->
  Rfc7693.blocks (Rfc7693.dd (length data)) (Rfc7693.padded data) =
  firstn 128 data ::
  Rfc7693.blocks (Rfc7693.dd (length (skipn 128 data)))
                 (Rfc7693.padded (skipn 128 data)).
Proof.
  intros H. unfold Rfc7693.padded.
  rewrite length_skipn, (dd_step H).
  cbn [Rfc7693.blocks]. unfold Rfc7693.bb.
  rewrite firstn_app, skipn_app.
  replace (128 - length data)%nat with 0%nat by lia.
  rewrite firstn_O, skipn_O, app_nil_r.
  set (d := Rfc7693.dd (length data - 128)).
  replace (S d * 128 - length data)%nat
    with (d * 128 - (length data - 128))%nat by lia.
  reflexivity.
Qed.

Lemma compress_blocks_cons (hh : list Z) (i : nat) (b : bytes) (d : list bytes)
      (ll : Z) :
  d <> [] ->
  Rfc7693.compress_blocks hh i (b :: d) ll =
  Rfc7693.compress_blocks
    (Rfc7693.F hh (Rfc7693.block_words b) (Z.of_nat ((i + 1) * Rfc7693.bb)) false)
    (S i) d ll.
Proof. destruct d; [congruence|reflexivity]. Qed.

Lemma blocks_nonempty (ll : nat) (data : bytes) :
  Rfc7693.blocks (Rfc7693.dd ll) data <> [].
Proof. destruct (dd_pos ll) as [k ->]. discriminate. Qed.

Lemma absorb_rfc (n : nat) :
  forall (st : blake2b_state) (i : nat) (input : bytes),
    ready st i ->
    (length input <= 128 * (n + 1))%nat ->
    absorb n st input =
    firstn (outlen st)
      (flat_map Rfc7693.le_bytes
         (Rfc7693.compress_blocks (h st) i
            (Rfc7693.blocks (Rfc7693.dd (length input)) (Rfc7693.padded input))
            (Z.of_nat (i * BLOCKBYTES + length input)))).
Proof.
  assert (Hlast : forall st i input,
             ready st i -> (length input <= 128)%nat ->
             blake2b_final (set_buf st (buf st ++ input)) =
             firstn (outlen st)
               (flat_map Rfc7693.le_bytes
                  (Rfc7693.compress_blocks (h st) i
                     (Rfc7693.blocks (Rfc7693.dd (length input))
                                     (Rfc7693.padded input))
                     (Z.of_nat (i * BLOCKBYTES + length input))))).
  { intros st i input Hr Hlen.
    rewrite (blocks_last _ Hlen). cbn [Rfc7693.compress_blocks].
    apply final_F; assumption. }
  induction n as [|n IH]; intros st i input Hr Hlen.
  - unfold absorb. cbn [update_loop]. apply Hlast; [exact Hr|lia].
  - unfold absorb. cbn [update_loop].
    destruct (Nat.ltb_spec BLOCKBYTES (length input)) as [Hgt|Hle].
    + unfold BLOCKBYTES in Hgt.
      fold (absorb n
              (blake2b_compress (blake2b_increment_counter st (Z.of_nat BLOCKBYTES)) input)
              (skipn BLOCKBYTES input)).
      rewrite (IH _ (S i) _ (ready_step input Hr))
        by (unfold BLOCKBYTES; rewrite length_skipn; lia).
      change (outlen (blake2b_compress
                        (blake2b_increment_counter st (Z.of_nat BLOCKBYTES)) input))
        with (outlen st).
      f_equal. f_equal.
      rewrite (blocks_step _ Hgt).
      rewrite compress_blocks_cons by apply blocks_nonempty.
      rewrite (step_h input Hr).
      rewrite <- (block_words_firstn input). unfold BLOCKBYTES.
      f_equal. rewrite length_skipn. lia.
    + apply Hlast; [exact Hr|exact Hle].
Qed.

Lemma set_buf_same (st : blake2b_state) : set_buf st (buf st ++ []) = st.
Proof. rewrite app_nil_r. now destruct st. Qed.

(** [update] on a state with nothing buffered, then [final]. *)
Lemma update_final_absorb (st : blake2b_state) (input : bytes) :
  buf st = [] ->
  exists n, (length input <= 128 * (n + 1))%nat /\
            blake2b_final (blake2b_update st input) = absorb n st input.
Proof.
  intros Hb. unfold blake2b_update.
  destruct input as [|b0 input'].
  - exists 0%nat. split; [cbn; lia|].
    unfold absorb. cbn [update_loop]. now rewrite set_buf_same.
  - set (input := b0 :: input') in *.
    unfold buflen. rewrite Hb. cbn [length app]. rewrite Nat.sub_0_r.
    destruct (Nat.ltb_spec BLOCKBYTES (length input)) as [Hgt|Hle].
    + exists (S (length (skipn BLOCKBYTES input))). split.
      { rewrite length_skipn. unfold BLOCKBYTES in *. lia. }
      unfold absorb at 1. cbn [update_loop].
      replace (BLOCKBYTES <? length input)%nat with true
        by (symmetry; now apply Nat.ltb_lt).
      replace (set_buf
                 (blake2b_compress
                    (blake2b_increment_counter (set_buf st (firstn BLOCKBYTES input))
                       (Z.of_nat BLOCKBYTES))
                    (buf (blake2b_increment_counter
                            (set_buf st (firstn BLOCKBYTES input))
                            (Z.of_nat BLOCKBYTES)))) [])
        with (blake2b_compress (blake2b_increment_counter st (Z.of_nat BLOCKBYTES)) input).
      { destruct (update_loop _ _ _) as [st2 rest]. reflexivity. }
      rewrite <- (compress_firstn _ input).
      destruct st as [h0 t0 f0 b1 o l]. cbn [buf] in Hb. subst b1. reflexivity.
    + exists 0%nat. split; [unfold BLOCKBYTES in Hle; lia|].
      unfold absorb. cbn [update_loop]. now rewrite Hb.
Qed.

Lemma init_ready (nn : nat) :
  (1 <= nn <= 64)%nat ->
  ready (blake2b_init_param (blake2b_param nn)) 0 /\
  outlen (blake2b_init_param (blake2b_param nn)) = nn /\
  h (blake2b_init_param (blake2b_param nn)) =
  upd Rfc7693.IV 0
    (Z.lxor (get Rfc7693.IV 0)
       (Z.lxor 0x01010000 (Z.lxor (Z.shiftl 0 8) (Z.of_nat nn)))).
Proof.
  intros Hnn.
  assert (Hall : forallb init_check (map N.of_nat (seq 0 65)) = true)
    by now vm_compute.
  pose proof (@N_forall_below init_check 65 Hall (N.of_nat nn) ltac:(lia)) as H.
  unfold init_check in H. cbv zeta in H. rewrite Nat2N.id in H.
  apply orb_true_iff in H as [H|H]; [apply Nat.eqb_eq in H; lia|].
  apply andb_true_iff in H as [Ho Hh]. apply Nat.eqb_eq in Ho.
  split; [|split].
  - split; reflexivity.
  - exact Ho.
  - revert Hh.
    unfold blake2b_init_param. cbn [h].
    rewrite IV_table.
    generalize (Z.lxor (get blake2b_IV 0)
                  (Z.lxor 0x01010000 (Z.lxor (Z.shiftl 0 8) (Z.of_nat nn)))).
    intros z.
    cbn [seq map]. cbn [blake2b_IV upd].
    cbn [combine forallb fst snd].
    rewrite !andb_true_iff, !Z.eqb_eq.
    intros (-> & -> & -> & -> & -> & -> & -> & -> & _). reflexivity.
Qed.

(** The hash object of [hashlib] computes BLAKE2b of RFC 7693. *)
Lemma blake2b_rfc (data : bytes) (nn : nat) :
  (1 <= nn <= 64)%nat ->
  exists st, blake2b data nn = Ok st /\ digest st = Rfc7693.BLAKE2b data nn.
Proof.
  intros Hnn. unfold blake2b, OUTBYTES.
  replace ((1 <=? nn)%nat && (nn <=? 64)%nat) with true
    by (symmetry; apply andb_true_iff; split; apply Nat.leb_le; lia).
  eexists. split; [reflexivity|].
  destruct (init_ready Hnn) as (Hr & Ho & Hh).
  unfold digest.
  destruct (@update_final_absorb _ data (ready_buf Hr)) as (n & Hn & ->).
  rewrite (@absorb_rfc n _ _ _ Hr Hn), Ho, Hh.
  reflexivity.
Qed.

End Blake2bRefinement.

(** ** The JSON encoder against the pretty printer *)

Section JsonRefinement.
Import Json Pretty.

(** Induction on objects, with the hypothesis on every member value. *)
Lemma pyobj_nested_ind (P : pyobj -> Prop) :
  (forall s, P (PyStr s)) ->
  (forall items, Forall (fun kv => P (snd kv)) items -> P (PyDict items)) ->
  forall o, P o.
Proof.
  intros Hs Hd. fix IH 1. intros [s|items].
  - apply Hs.
  - apply Hd. induction items as [|[k v] rest IHrest].
    + constructor.
    + constructor; [apply IH|exact IHrest].
Qed.

Lemma str_mul_spaces (w n : nat) : str_mul (str_mul (lit " ") w) n = spaces (w * n).
Proof.
  unfold str_mul, spaces.
  assert (E : forall k, concat (repeat (lit " ") k) = repeat (chr 32) k).
  { induction k as [|k IHk]; [reflexivity|]. cbn [repeat concat]. now rewrite IHk. }
  rewrite E. rewrite Nat.mul_comm.
  induction n as [|n IHn]; [reflexivity|].
  cbn [repeat concat Nat.mul]. rewrite IHn. now rewrite repeat_app.
Qed.

Lemma join_cons (sep x : str) (l : list str) :
  join sep (x :: l) = x ++ concat (map (fun y => sep ++ y) l).
Proof.
  revert x. induction l as [|y l IH]; intros x.
  - cbn. now rewrite app_nil_r.
  - change (join sep (x :: y :: l)) with (x ++ sep ++ join sep (y :: l)).
    rewrite IH. cbn [map concat]. now rewrite <- app_assoc.
Qed.

Section Members.
Variables (width level : nat).
Let ind := str_mul (lit " ") width.
Let sep := lit "," ++ (lit (String "010" EmptyString) ++ str_mul ind (S level)).
Let member (kv : str * pyobj) : str :=
  match kv with
  | (k, v) => spaces (width * S level) ++ encode_basestring_ascii k ++
              lit ": " ++ render width (S level) v
  end.

Lemma items_text (items : list (str * pyobj)) :
  Forall (fun kv => forall lvl,
            concat (_iterencode (Some ind) (lit ": ") (lit ",") (snd kv) lvl) =
            render width lvl (snd kv)) items ->
  concat (_iterencode_dict_items (lit ": ")
            (fun value => _iterencode (Some ind) (lit ": ") (lit ",") value (S level))
            sep items false) =
  concat (map (fun y => (lit "," ++ [newline]) ++ y) (map member items)).
Proof.
  induction 1 as [|[k v] rest Hv _ IH]; [reflexivity|].
  cbn [_iterencode_dict_items map concat app].
  rewrite !concat_app. cbn [snd] in Hv. rewrite Hv, IH.
  subst sep member ind. cbv beta iota. rewrite str_mul_spaces.
  unfold _encoder.
  change (lit (String "010" EmptyString)) with [newline].
  rewrite <- !app_assoc. reflexivity.
Qed.
End Members.

Lemma iterencode_render (width : nat) (o : pyobj) :
  forall lvl,
    concat (_iterencode (Some (str_mul (lit " ") width)) (lit ": ") (lit ",") o lvl) =
    render width lvl o.
Proof.
  induction o as [s|items IH] using pyobj_nested_ind; intros lvl.
  - cbn. now rewrite app_nil_r.
  - destruct items as [|[k v] rest]; [reflexivity|].
    inversion IH as [|? ? Hv Hrest]; subst. cbn [snd] in Hv.
    cbn [_iterencode render].
    cbn [_iterencode_dict_items].
    rewrite !concat_app. cbn [concat]. rewrite !app_nil_r.
    rewrite (items_text width lvl Hrest), Hv, app_nil_l.
    rewrite !str_mul_spaces.
    cbn [map]. rewrite join_cons.
    unfold _encoder.
    change (lit (String "010" EmptyString)) with [newline].
    rewrite <- !app_assoc. reflexivity.
Qed.

End JsonRefinement.

(** ** Everything the encoder yields is ASCII *)

Section JsonAscii.
Import Json Pretty.
Local Open Scope N_scope.

Lemma is_ascii_app (a b : str) : is_ascii a -> is_ascii b -> is_ascii (a ++ b).
Proof. unfold is_ascii. intros Ha Hb. apply Forall_app. now split. Qed.

Lemma is_ascii_check (s : str) :
  forallb (fun c => ord c <? 128) s = true -> is_ascii s.
Proof.
  intros H. apply Forall_forall. intros c Hc.
  rewrite forallb_forall in H. now apply N.ltb_lt, H.
Qed.

Lemma hexdigit_ascii (i : N) : ord (Hex.hexdigit i) < 128.
Proof.
  unfold Hex.hexdigit. generalize (N.to_nat i). intros k.
  do 16 (destruct k as [|k]; [reflexivity|]).
  destruct k; reflexivity.
Qed.

Lemma format_04x_ascii (n : N) : is_ascii (format_04x n).
Proof. unfold format_04x. repeat constructor; apply hexdigit_ascii. Qed.

Lemma u_escape_ascii (n : N) : is_ascii (backslash :: lit "u" ++ format_04x n).
Proof.
  constructor; [reflexivity|].
  apply is_ascii_app; [now apply is_ascii_check|apply format_04x_ascii].
Qed.

Lemma replace_ascii (c : codepoint) : is_ascii (replace c).
Proof.
  unfold replace, ESCAPE_DCT.
  repeat match goal with
         | |- context [if ?b then _ else _] => destruct b
         end;
    try (now apply is_ascii_check);
    try apply u_escape_ascii.
  apply is_ascii_app; apply u_escape_ascii.
Qed.

Lemma encode_basestring_ascii_is_ascii (s : str) :
  is_ascii (encode_basestring_ascii s).
Proof.
  unfold encode_basestring_ascii.
  apply is_ascii_app; [now apply is_ascii_check|].
  apply is_ascii_app; [|now apply is_ascii_check].
  induction s as [|c s IH]; [constructor|].
  cbn [flat_map]. apply is_ascii_app; [|exact IH].
  unfold ESCAPE_ASCII.
  destruct (ord c =? 92); [apply replace_ascii|].
  destruct (ord c =? 34); [apply replace_ascii|].
  cbn [orb].
  destruct (N.leb_spec 0x20 (ord c)); [|apply replace_ascii].
  destruct (N.leb_spec (ord c) 0x7e); [|apply replace_ascii].
  cbn [andb negb]. constructor; [lia|constructor].
Qed.

Lemma spaces_ascii (n : nat) : is_ascii (spaces n).
Proof. unfold spaces. induction n; constructor; [reflexivity|assumption]. Qed.

Lemma join_ascii (sep : str) (l : list str) :
  is_ascii sep -> Forall is_ascii l -> is_ascii (join sep l).
Proof.
  intros Hs Hl. destruct l as [|x l]; [constructor|].
  rewrite join_cons. inversion Hl as [|? ? Hx Hl']; subst.
  apply is_ascii_app; [exact Hx|].
  clear Hl Hx. induction Hl' as [|y l' Hy _ IH]; [constructor|].
  cbn [map concat].
  apply is_ascii_app; [apply is_ascii_app; assumption|exact IH].
Qed.

Lemma render_ascii (width : nat) (o : pyobj) :
  forall depth, is_ascii (render width depth o).
Proof.
  induction o as [s|items IH] using pyobj_nested_ind; intros depth.
  - apply encode_basestring_ascii_is_ascii.
  - destruct items as [|kv rest]; [now apply is_ascii_check|].
    cbn [render].
    apply is_ascii_app; [now apply is_ascii_check|].
    apply is_ascii_app; [now apply is_ascii_check|].
    apply is_ascii_app.
    + apply join_ascii; [now apply is_ascii_check|].
      apply Forall_map. revert IH. apply Forall_impl. intros [k v] Hv.
      apply is_ascii_app; [apply spaces_ascii|].
      apply is_ascii_app; [apply encode_basestring_ascii_is_ascii|].
      apply is_ascii_app; [now apply is_ascii_check|apply Hv].
    + apply is_ascii_app; [now apply is_ascii_check|].
      apply is_ascii_app; [apply spaces_ascii|now apply is_ascii_check].
Qed.

(** The text stream encodes ASCII text byte for character. *)
Lemma encode_from_ascii (s : str) (i : nat) :
  is_ascii s -> Utf8.encode_from i s = Ok (ascii_bytes s).
Proof.
  revert i. induction s as [|c s IH]; intros i H; [reflexivity|].
  inversion H as [|? ? Hc Hs]; subst.
  cbn [Utf8.encode_from]. unfold Utf8.encode_char.
  replace (ord c <? 0x80) with true by (symmetry; apply N.ltb_lt; exact Hc).
  rewrite (IH (S i) Hs). reflexivity.
Qed.

Lemma write_chunks_ascii (chunks : list str) (written : bytes) :
  is_ascii (concat chunks) ->
  write_chunks chunks written =
  mk_outcome (written ++ ascii_bytes (concat chunks)) None.
Proof.
  revert written. induction chunks as [|chunk rest IH]; intros written H.
  - cbn. now rewrite app_nil_r.
  - cbn [concat] in H. apply Forall_app in H as [Hc Hr].
    cbn [write_chunks]. unfold stdout_write, Utf8.encode.
    rewrite (encode_from_ascii 0 Hc). cbn [bind].
    rewrite (IH _ Hr). cbn [concat].
    unfold ascii_bytes. now rewrite map_app, app_assoc.
Qed.

(** [json.dump] with an indent writes the pretty-printed text, whatever the
    object, and does not raise. *)
Lemma json_dump_pretty (o : pyobj) (width : nat) (written : bytes) :
  json_dump o (Some width) written =
  mk_outcome (written ++ ascii_bytes (render width 0 o)) None.
Proof.
  unfold json_dump, iterencode. cbn [option_map].
  rewrite write_chunks_ascii; rewrite iterencode_render;
    [reflexivity|apply render_ascii].
Qed.

End JsonAscii.

(** ** The dictionary comprehension *)

Lemma dict_setitem_absent {V} (d : dict V) (k : str) (v : V) :
  ~ In k (keys d) -> dict_setitem d k v = d ++ [(k, v)].
Proof.
  induction d as [|[k' v'] d IH]; intros H; [reflexivity|].
  cbn [dict_setitem].
  destruct (str_eqb k' k) eqn:E.
  - apply str_eqb_eq in E. exfalso. apply H. now left.
  - rewrite IH; [reflexivity|]. intros Hin. apply H. now right.
Qed.

(** Over names that are pairwise distinct and not yet keys, the
    comprehension appends one item per name, in order, with the value
    [h32 name]. *)
Lemma dict_comp_spec (names : list str) :
  forall (acc d : dict str),
    NoDup names ->
    (forall n, In n names -> ~ In n (keys acc)) ->
    dict_comp names acc = Ok d ->
    exists items,
      d = acc ++ items /\ keys items = names /\
      Forall (fun kv => h32 (fst kv) = Ok (snd kv)) items.
Proof.
  induction names as [|name rest IH]; intros acc d Hnd Hfresh Hd.
  - cbn in Hd. injection Hd as <-. exists []. rewrite app_nil_r. repeat split.
    constructor.
  - cbn [dict_comp] in Hd.
    destruct (h32 name) as [v|e] eqn:Hv; [|discriminate].
    cbn [bind] in Hd.
    rewrite dict_setitem_absent in Hd by (apply Hfresh; now left).
    inversion Hnd as [|? ? Hnotin Hnd']; subst.
    apply IH in Hd; [|exact Hnd'|].
    + destruct Hd as (items & -> & Hk & Hall).
      exists ((name, v) :: items). rewrite <- app_assoc. repeat split.
      * unfold keys in *. cbn [map fst]. now f_equal.
      * constructor; [exact Hv|exact Hall].
    + intros n Hn. unfold keys. rewrite map_app, in_app_iff.
      intros [Hin|Hin].
      * apply (Hfresh n); [now right|exact Hin].
      * cbn in Hin. destruct Hin as [<-|[]]. contradiction.
Qed.

Lemma dict_comp_total (names : list str) :
  forall acc, Forall no_surrogate names ->
              exists d, dict_comp names acc = Ok d.
Proof.
  induction names as [|name rest IH]; intros acc H.
  - now exists acc.
  - inversion H as [|? ? Hn Hr]; subst. cbn [dict_comp].
    unfold h32 at 1. unfold Utf8.encode.
    destruct (encode_from_total 0 Hn) as [data ->]. cbn [bind].
    destruct (@blake2b_rfc data 16 ltac:(lia)) as (st & -> & _). cbn [bind].
    apply IH. exact Hr.
Qed.

(* ================================================================== *)
(** * The properties of the specification (C1 to C10) *)

Lemma distinctb_NoDup (l : list str) : distinctb l = true -> NoDup l.
Proof.
  induction l as [|x l IH]; intros H; [constructor|].
  cbn [distinctb] in H. apply andb_true_iff in H as [Hx Hl].
  constructor; [|now apply IH].
  intros Hin. apply negb_true_iff in Hx.
  assert (E : existsb (str_eqb x) l = true).
  { apply existsb_exists. exists x. split; [exact Hin|apply str_eqb_refl]. }
  congruence.
Qed.

(** What the comprehension evaluates to. *)
Lemma out_value : out = Ok (combine CONTAINERS container_ids).
Proof. vm_compute. reflexivity. Qed.

Lemma F_length (hh m : list Z) (t : Z) (f : bool) :
  length (Rfc7693.F hh m t f) = 8%nat.
Proof. unfold Rfc7693.F. cbv zeta. now rewrite length_map, length_seq. Qed.

Lemma compress_blocks_length (d : list bytes) :
  forall hh i ll, d <> [] -> length (Rfc7693.compress_blocks hh i d ll) = 8%nat.
Proof.
  induction d as [|b rest IH]; intros hh i ll H; [congruence|].
  destruct rest as [|b' rest'].
  - apply F_length.
  - rewrite compress_blocks_cons by discriminate. apply IH. discriminate.
Qed.

Lemma BLAKE2b_length (data : bytes) (nn : nat) :
  (nn <= 64)%nat -> length (Rfc7693.BLAKE2b data nn) = nn.
Proof.
  intros H. unfold Rfc7693.BLAKE2b. cbv zeta.
  apply firstn_length_le.
  match goal with
  | |- (_ <= length (flat_map _ ?hh))%nat =>
      assert (Hh : length hh = 8%nat)
        by (apply compress_blocks_length, blocks_nonempty);
      destruct hh as [|a0 [|a1 [|a2 [|a3 [|a4 [|a5 [|a6 [|a7 [|]]]]]]]]];
      try discriminate Hh
  end.
  cbn [flat_map]. rewrite !length_app. unfold Rfc7693.le_bytes.
  rewrite !length_map, !length_seq. cbn [length]. lia.
Qed.

Lemma h32_returns_hex32 (s d : str) : h32 s = Ok d -> hex32 d.
Proof.
  unfold h32. destruct (Utf8.encode s) as [data|e]; [|discriminate].
  cbn [bind].
  destruct (@blake2b_rfc data 16 ltac:(lia)) as (st & E & Hd). rewrite E.
  cbn [bind]. intros H. injection H as <-. unfold hexdigest. split.
  - rewrite strhex_length, Hd, BLAKE2b_length; [reflexivity|lia].
  - apply strhex_lower_hex.
Qed.

Lemma h32_total (s : str) : no_surrogate s -> exists d, h32 s = Ok d.
Proof.
  intros H. unfold h32, Utf8.encode.
  destruct (encode_from_total 0 H) as [data ->]. cbn [bind].
  destruct (@blake2b_rfc data 16 ltac:(lia)) as (st & -> & _). cbn [bind].
  eauto.
Qed.

(** A raised [UnicodeEncodeError] points at a surrogate. *)
Lemma encode_from_raise (s : str) (i : nat) (e : exn) :
  Utf8.encode_from i s = Raise e ->
  exists j c, e = UnicodeEncodeError (i + j) /\ nth_error s j = Some c /\
              Utf8.is_surrogate (ord c) = true /\ no_surrogate (firstn j s).
Proof.
  revert i. induction s as [|c s IH]; intros i H; [discriminate|].
  cbn [Utf8.encode_from] in H.
  destruct (Utf8.encode_char (ord c)) as [bs|] eqn:E.
  - destruct (Utf8.encode_from (S i) s) as [tl|e'] eqn:E'; [discriminate|].
    cbn [bind] in H. injection H as <-.
    destruct (IH (S i) E') as (j & c' & -> & Hn & Hs & Hf).
    exists (S j), c'. repeat split; [f_equal; lia|exact Hn|exact Hs|].
    cbn [firstn]. constructor; [|exact Hf].
    destruct (Utf8.is_surrogate (ord c)) eqn:Es; [|reflexivity].
    apply encode_char_None in Es. congruence.
  - injection H as <-. apply encode_char_None in E.
    exists 0%nat, c. repeat split; [f_equal; lia|exact E|constructor].
Qed.

(** The run of the script, in closed form. *)
Lemma main_value (w : world) :
  main w =
  mk_outcome
    (Pretty.ascii_bytes
       (Pretty.render 2 0 (as_pyobj (combine CONTAINERS container_ids))))
    None.
Proof. unfold main. rewrite out_value. apply json_dump_pretty. Qed.

Lemma render_flat_document :
  Pretty.render 2 0 (as_pyobj (combine CONTAINERS container_ids)) =
  flat_document (combine CONTAINERS container_ids).
Proof. vm_compute. reflexivity. Qed.

Lemma h32_call_pure (s : str) (sigma : pystate) :
  h32_call s sigma = (h32 s, sigma).
Proof.
  unfold h32_call, h32, then_, str_encode, blake2b_new, blake2b_hexdigest,
    release, ret.
  destruct (Utf8.encode s) as [data|e]; cbn [bind]; [|reflexivity].
  destruct (Blake2b.blake2b data 16) as [st|e]; cbn [bind]; [|reflexivity].
  cbn [objects written].
  rewrite nth_error_app2 by apply Nat.le_refl.
  rewrite Nat.sub_diag. cbn [nth_error objects written].
  rewrite firstn_app, Nat.sub_diag, firstn_all, firstn_O, app_nil_r.
  now destruct sigma.
Qed.

(** C1: for every string [s], [h32 s] is the lowercase hexadecimal rendering
    of the 16-byte BLAKE2b digest (RFC 7693) of the UTF-8 encoding (RFC 3629)
    of [s]; where [s] has no UTF-8 encoding (it holds a surrogate) neither
    side has a value. *)
Theorem C1_h32_is_reference_pipeline (s : str) :
  returned (h32 s) = h32_reference s.
Proof.
  unfold h32, h32_reference.
  (* s.encode() *)
  rewrite <- encode_rfc.
  destruct (Utf8.encode s) as [data|e]; [|reflexivity].
  cbn [bind returned].
  (* blake2b(data, digest_size=16) *)
  destruct (@blake2b_rfc data 16 ltac:(lia)) as (st & -> & Hd).
  cbn [bind returned].
  (* hexdigest() *)
  unfold hexdigest.
  now rewrite Hd, strhex_hex_lower.
Qed.

Lemma write_to_utf8 (chunks : list str) :
  forall written : bytes,
    write_to utf8_stream chunks tt written = write_chunks chunks written.
Proof.
  induction chunks as [|chunk rest IH]; intros written; [reflexivity|].
  cbn [write_to write_chunks stream_write utf8_stream]. unfold stdout_write.
  destruct (Utf8.encode chunk) as [b|e]; cbn [bind]; [apply IH|reflexivity].
Qed.

(** [main] is the run on the default stream. *)
Lemma main_is_run (w : world) : main w = run (mk_process w utf8_stream).
Proof.
  unfold main, run, script_chunks, json_dump.
  destruct out as [d|e]; cbn [bind stdout_stream stream_init utf8_stream];
    [|reflexivity].
  symmetry. apply write_to_utf8.
Qed.





(** C3 as stated fails: on a string that holds a surrogate, [h32] raises and
    yields no identifier. *)
Lemma C3_counterexample :
  h32 [chr 0xD800] = Raise (UnicodeEncodeError 0) /\
  ~ (forall s : str, exists d, h32 s = Ok d /\ hex32 d).
Proof.
  split; [reflexivity|].
  intros H. destruct (H [chr 0xD800]) as (d & Hd & _). discriminate Hd.
Qed.

(** C3 (amended): for every string [s] without surrogate code points,
    [h32 s] is a string of exactly 32 characters, each a lowercase
    hexadecimal digit; whatever [h32] returns has this form; every
    identifier of the emitted mapping has it. *)
Theorem C3_identifier_format :
  (forall s : str, no_surrogate s -> exists d, h32 s = Ok d /\ hex32 d) /\
  (forall s d : str, h32 s = Ok d -> hex32 d) /\
  (exists m, out = Ok m /\ Forall hex32 (values m)).
Proof.
  split; [|split].
  - intros s Hs. destruct (h32_total Hs) as [d Hd].
    exists d. split; [exact Hd|]. exact (h32_returns_hex32 _ Hd).
  - exact h32_returns_hex32.
  - destruct (@dict_comp_total CONTAINERS []) as [m Hm].
    { repeat constructor. }
    exists m. split; [exact Hm|].
    destruct (@dict_comp_spec CONTAINERS [] m) as (items & -> & _ & Hall).
    + apply distinctb_NoDup. reflexivity.
    + intros n _ [].
    + exact Hm.
    + cbn [app]. unfold values. apply Forall_map.
      revert Hall. apply Forall_impl. intros [k v] Hkv.
      exact (h32_returns_hex32 _ Hkv).
Qed.

Lemma C3_identifier_format_witness :
  no_surrogate (lit "C.Jobs") /\
  exists d, h32 (lit "C.Jobs") = Ok d /\ hex32 d.
Proof.
  assert (H : no_surrogate (lit "C.Jobs")) by (repeat constructor).
  split; [exact H|].
  exact (proj1 C3_identifier_format (lit "C.Jobs") H).
Defined.

(** C4: the mapping has exactly one entry per name of [CONTAINERS]: its keys
    are the five names (none missing, none extra, none twice), each value is
    [h32] of its key, and this mapping is the one every run emits. *)
Theorem C4_registry_complete :
  exists m : dict str,
    out = Ok m /\
    keys m = CONTAINERS /\
    NoDup (keys m) /\
    length m = 5%nat /\
    (forall k v, In (k, v) m -> h32 k = Ok v) /\
    (forall k, In k CONTAINERS -> exists v, dict_get m k = Some v /\ h32 k = Ok v) /\
    (forall w, stdout (main w) =
               Pretty.ascii_bytes (Pretty.render 2 0 (as_pyobj m))).
Proof.
  assert (Hnd : NoDup CONTAINERS) by (apply distinctb_NoDup; reflexivity).
  destruct (@dict_comp_total CONTAINERS []) as [m Hm]; [repeat constructor|].
  destruct (@dict_comp_spec CONTAINERS [] m Hnd) as (items & -> & Hk & Hall);
    [intros n _ []|exact Hm|].
  cbn [app] in *. exists items.
  assert (Hin : forall k v, In (k, v) items -> h32 k = Ok v).
  { intros k v Hkv. rewrite Forall_forall in Hall. exact (Hall (k, v) Hkv). }
  split; [exact Hm|]. split; [exact Hk|]. split; [now rewrite Hk|].
  split; [unfold keys in Hk; now rewrite <- (length_map fst), Hk|].
  split; [exact Hin|]. split.
  - intros k Hkin. rewrite <- Hk in Hkin. clear Hm Hk Hnd Hall.
    induction items as [|[k' v'] rest IH]; [contradiction|].
    cbn [dict_get]. destruct (str_eqb k' k) eqn:E.
    + apply str_eqb_eq in E. subst k'. exists v'. split; [reflexivity|].
      apply Hin. now left.
    + apply IH.
      * intros k0 v0 H0. apply Hin. now right.
      * destruct Hkin as [Hk|Hk]; [|exact Hk].
        cbn in Hk. subst k'. now rewrite str_eqb_refl in E.
  - intros w. unfold out in Hm. unfold main, out. rewrite Hm.
    now rewrite json_dump_pretty.
Qed.

(** C5: the keys of the mapping, and the keys in the document on standard
    output, come in the declaration order of the list: C.Messenger, C.Jobs,
    C.Office, C.Policy, C.Runner. *)
Theorem C5_key_order :
  exists v1 v2 v3 v4 v5 : str,
    Forall hex32 [v1; v2; v3; v4; v5] /\
    out = Ok [ (lit "C.Messenger", v1); (lit "C.Jobs", v2); (lit "C.Office", v3);
               (lit "C.Policy", v4); (lit "C.Runner", v5) ] /\
    forall w,
      stdout (main w) =
      Pretty.ascii_bytes
        (flat_document
           [ (lit "C.Messenger", v1); (lit "C.Jobs", v2); (lit "C.Office", v3);
             (lit "C.Policy", v4); (lit "C.Runner", v5) ]).
Proof.
  pose proof h32_returns_hex32 as Hfmt.
  pose proof out_value as Ho. unfold out in Ho.
  assert (Hall : Forall hex32 container_ids).
  { destruct (@dict_comp_spec CONTAINERS [] _ ltac:(apply distinctb_NoDup; reflexivity)
                ltac:(intros n _ []) Ho) as (items & E & _ & Hall).
    cbn [app] in E. subst items.
    repeat match goal with
           | H : Forall _ (_ :: _) |- _ => inversion H; clear H; subst
           end.
    cbn [fst snd] in *.
    repeat constructor; eapply Hfmt; eassumption. }
  unfold container_ids in Hall.
  do 5 eexists. split; [exact Hall|]. split; [exact out_value|].
  intros w. rewrite main_value. now rewrite render_flat_document.
Qed.

(** C6: the five identifiers [h32 name], for [name] in [CONTAINERS], exist
    and are pairwise distinct. *)
Theorem C6_identifiers_distinct :
  exists ids : list str,
    map h32 CONTAINERS = map Ok ids /\ length ids = 5%nat /\ NoDup ids.
Proof.
  exists container_ids. split; [vm_compute; reflexivity|].
  split; [reflexivity|]. apply distinctb_NoDup. reflexivity.
Qed.

(** C7: [h32] of the name C.Messenger is one fixed string of 32 hexadecimal
    characters, the same on every run; the reference pipeline gives the same
    value. *)
Theorem C7_messenger_identifier :
  h32 (lit "C.Messenger") = Ok (lit "96fc4e7e0691a83b54577e08f7b58c0b") /\
  h32_reference (lit "C.Messenger") = Some (lit "96fc4e7e0691a83b54577e08f7b58c0b") /\
  hex32 (lit "96fc4e7e0691a83b54577e08f7b58c0b").
Proof.
  assert (H : h32 (lit "C.Messenger") = Ok (lit "96fc4e7e0691a83b54577e08f7b58c0b"))
    by (vm_compute; reflexivity).
  split; [exact H|]. split.
  - vm_compute. reflexivity.
  - exact (h32_returns_hex32 _ H).
Qed.

(** C8 as stated fails: [h32] has a failure path; a name with a surrogate
    (here the code point U+DC80 after C.Jobs) makes [s.encode()] raise. *)
Lemma C8_counterexample :
  h32 (lit "C.Jobs" ++ [chr 0xDC80]) = Raise (UnicodeEncodeError 6) /\
  ~ (forall s : str, exists d, h32 s = Ok d).
Proof.
  split; [reflexivity|].
  intros H. destruct (H (lit "C.Jobs" ++ [chr 0xDC80])) as [d Hd].
  discriminate Hd.
Qed.

(** C8 (amended): on every string without surrogate code points [h32]
    returns a digest; its only failure is the UnicodeEncodeError of
    [s.encode()], raised at the first surrogate of the string.  [h32] has no
    side effect: run on any interpreter state, the call gives the result of
    [h32] and leaves the state as it was (nothing written to standard
    output, no object left alive), whether it returns or raises. *)
Theorem C8_h32_total_without_surrogates (s : str) :
  (no_surrogate s -> exists d, h32 s = Ok d) /\
  (forall e, h32 s = Raise e ->
             exists i c, e = UnicodeEncodeError i /\
                         nth_error s i = Some c /\
                         Utf8.is_surrogate (ord c) = true /\
                         no_surrogate (firstn i s)) /\
  (forall sigma : pystate, h32_call s sigma = (h32 s, sigma)).
Proof.
  split; [apply h32_total|]. split; [|apply h32_call_pure].
  intros e. unfold h32, Utf8.encode.
  destruct (Utf8.encode_from 0 s) as [data|e'] eqn:E.
  - cbn [bind].
    destruct (@blake2b_rfc data 16 ltac:(lia)) as (st & -> & _). discriminate.
  - cbn [bind]. intros H. injection H as <-.
    destruct (encode_from_raise _ _ E) as (j & c & -> & Hn & Hs & Hf).
    exists j, c. repeat split; assumption.
Qed.

Lemma C8_h32_total_without_surrogates_witness :
  no_surrogate (lit "C.Runner") /\ exists d, h32 (lit "C.Runner") = Ok d.
Proof.
  assert (H : no_surrogate (lit "C.Runner")) by (repeat constructor).
  split; [exact H|].
  exact (proj1 (C8_h32_total_without_surrogates (lit "C.Runner")) H).
Defined.

(** C9: a run writes one document, the chunks of the encoder in order and
    nothing else: the mapping pretty-printed as JSON with two more spaces of
    indentation per nesting level.  For this flat mapping: an opening brace,
    five member lines that each start with exactly two spaces and a double
    quote, a closing brace. *)
Theorem C9_indented_document (w : world) :
  exists m : dict str,
    out = Ok m /\
    uncaught (main w) = None /\
    stdout (main w) =
      Pretty.ascii_bytes (concat (Json.iterencode (as_pyobj m) (Some 2%nat))) /\
    stdout (main w) = Pretty.ascii_bytes (Pretty.render 2 0 (as_pyobj m)) /\
    Pretty.render 2 0 (as_pyobj m) = flat_document m /\
    map (firstn 3) (lines (stdout (main w))) =
      [ ["{"%byte];
        [" "%byte; " "%byte; "034"%byte]; [" "%byte; " "%byte; "034"%byte];
        [" "%byte; " "%byte; "034"%byte]; [" "%byte; " "%byte; "034"%byte];
        [" "%byte; " "%byte; "034"%byte];
        ["}"%byte] ].
Proof.
  exists (combine CONTAINERS container_ids).
  split; [exact out_value|].
  rewrite main_value. cbn [stdout uncaught].
  split; [reflexivity|]. split.
  - unfold Json.iterencode. cbn [option_map]. now rewrite iterencode_render.
  - split; [reflexivity|]. split; [exact render_flat_document|].
    vm_compute. reflexivity.
Qed.

(** C10: the byte stream on standard output ends with the closing brace;
    no line feed follows it. *)
Theorem C10_no_trailing_newline (w : world) :
  (exists body, stdout (main w) = body ++ ["}"%byte]) /\
  last (stdout (main w)) x00 = "}"%byte /\
  last (stdout (main w)) x00 <> "010"%byte.
Proof.
  rewrite main_value. cbn [stdout].
  assert (E : exists body,
             Pretty.ascii_bytes
               (Pretty.render 2 0 (as_pyobj (combine CONTAINERS container_ids))) =
             body ++ ["}"%byte]).
  { rewrite render_flat_document. unfold flat_document, Pretty.ascii_bytes.
    rewrite !map_app. eexists. rewrite !app_assoc. reflexivity. }
  destruct E as [body E]. rewrite E.
  split; [now exists body|].
  rewrite last_last. split; [reflexivity|discriminate].
Qed.

(* ================================================================== *)
(** * Further properties of the script's building blocks *)

Lemma dict_setitem_keys {V} (d : dict V) (k : str) (v : V) :
  keys (dict_setitem d k v) = add_key (keys d) k.
Proof.
  unfold add_key, keys.
  induction d as [|[k' v'] d IH]; [reflexivity|].
  cbn [dict_setitem map fst existsb].
  destruct (str_eqb k' k); [reflexivity|].
  cbn [orb map fst]. rewrite IH.
  destruct (existsb (fun k0 => str_eqb k0 k) (map fst d)); reflexivity.
Qed.

Lemma dict_comp_keys (names : list str) :
  forall acc m, dict_comp names acc = Ok m ->
                keys m = fold_left add_key names (keys acc).
Proof.
  induction names as [|name rest IH]; intros acc m H.
  - cbn in H. now injection H as <-.
  - cbn [dict_comp] in H. destruct (h32 name) as [v|e]; [|discriminate].
    cbn [bind] in H. apply IH in H. rewrite H, dict_setitem_keys. reflexivity.
Qed.

(** X1: over any list of pairwise distinct names without surrogates, the
    comprehension returns a mapping whose keys are the names in their order
    and whose values are [h32] of the keys. *)
Theorem X1_comprehension_keeps_order (names : list str) :
  NoDup names -> Forall no_surrogate names ->
  exists m, dict_comp names [] = Ok m /\ keys m = names /\
            Forall (fun kv => h32 (fst kv) = Ok (snd kv)) m.
Proof.
  intros Hnd Hs.
  destruct (@dict_comp_total names [] Hs) as [m Hm].
  destruct (@dict_comp_spec names [] m Hnd) as (items & -> & Hk & Hall);
    [intros n _ []|exact Hm|].
  exists items. cbn [app] in Hm. repeat split; assumption.
Qed.

Lemma X1_comprehension_keeps_order_witness :
  exists m, dict_comp [lit "C.Jobs"; lit "C.Policy"] [] = Ok m /\
            keys m = [lit "C.Jobs"; lit "C.Policy"] /\
            Forall (fun kv => h32 (fst kv) = Ok (snd kv)) m.
Proof.
  apply X1_comprehension_keeps_order.
  - apply distinctb_NoDup. reflexivity.
  - repeat constructor.
Defined.

(** X2: a name that comes again later in the list gets no second entry: the
    keys of the mapping are the names in the order of their first
    occurrence. *)
Theorem X2_comprehension_first_occurrence (names : list str) :
  Forall no_surrogate names ->
  exists m, dict_comp names [] = Ok m /\ keys m = fold_left add_key names [].
Proof.
  intros Hs. destruct (@dict_comp_total names [] Hs) as [m Hm].
  exists m. split; [exact Hm|]. exact (dict_comp_keys _ _ Hm).
Qed.

Lemma X2_comprehension_first_occurrence_witness :
  exists m, dict_comp [lit "C.Jobs"; lit "C.Policy"; lit "C.Jobs"] [] = Ok m /\
            keys m = fold_left add_key [lit "C.Jobs"; lit "C.Policy"; lit "C.Jobs"] [].
Proof.
  apply X2_comprehension_first_occurrence. repeat constructor.
Defined.

(** X3: [json.dump(m, sys.stdout, indent=2)] does not raise on any mapping
    of strings to strings, whatever characters the keys and values hold; it
    writes ASCII bytes only, the pretty-printed text of the mapping, after
    what was written before. *)
Theorem X3_json_dump_any_mapping (m : dict str) (written : bytes) :
  json_dump (as_pyobj m) (Some 2%nat) written =
    mk_outcome (written ++ Pretty.ascii_bytes (Pretty.render 2 0 (as_pyobj m)))
               None /\
  is_ascii (Pretty.render 2 0 (as_pyobj m)).
Proof. split; [apply json_dump_pretty|apply render_ascii]. Qed.

(* ================================================================== *)
(** * The hash object against the text of RFC 7693 *)

Section Rfc7693TextRefinement.
Import W64.
Local Open Scope Z_scope.

Lemma word_bits (x : Z) :
  word x <-> 0 <= x /\ forall k, 64 <= k -> Z.testbit x k = false.
Proof.
  unfold word. split.
  - intros [H0 H1]. split; [exact H0|]. intros k Hk.
    destruct (Z.eq_dec x 0) as [->|Hx]; [apply Z.bits_0|].
    apply Z.bits_above_log2; [exact H0|].
    assert (Z.log2 x < 64) by (apply Z.log2_lt_pow2; lia). lia.
  - intros [H0 H1]. split; [exact H0|].
    destruct (Z.lt_ge_cases x (2 ^ 64)) as [H|H]; [exact H|].
    assert (Hp : 0 < x) by lia.
    assert (Hl : 64 <= Z.log2 x) by (apply Z.log2_le_pow2; lia).
    pose proof (Z.bit_log2 x Hp) as Hb.
    rewrite (H1 _ Hl) in Hb. discriminate Hb.
Qed.

Lemma word_lxor (a b : Z) : word a -> word b -> word (Z.lxor a b).
Proof.
  rewrite !word_bits. intros [Ha Ha'] [Hb Hb']. split.
  - now apply Z.lxor_nonneg.
  - intros k Hk. now rewrite Z.lxor_spec, Ha', Hb'.
Qed.

Lemma word_mod (x : Z) : word (x mod 2 ^ 64).
Proof. unfold word. apply Z.mod_pos_bound. lia. Qed.

Lemma word_0 : word 0.
Proof. unfold word. lia. Qed.

Lemma rotr_text (x n : Z) :
  word x -> 0 < n < 64 -> Rfc7693Text.rotr x n = rotr x n.
Proof.
  intros Hx Hn. unfold Rfc7693Text.rotr, rotr, wrap, Rfc7693Text.w.
  apply Z.lxor_lor. apply Z.bits_inj'. intros k Hk.
  rewrite Z.land_spec, Z.bits_0, Z.shiftr_spec by exact Hk.
  apply word_bits in Hx. destruct Hx as [_ Hx].
  destruct (Z.lt_ge_cases k (64 - n)) as [Hlt|Hge].
  - rewrite Z.mod_pow2_bits_low by lia.
    rewrite Z.shiftl_spec_low by lia. apply andb_false_r.
  - rewrite Hx by lia. reflexivity.
Qed.

Lemma word_rotr (x n : Z) : word x -> 0 < n < 64 -> word (rotr x n).
Proof.
  intros Hx Hn. rewrite <- (rotr_text Hx Hn). unfold Rfc7693Text.rotr.
  apply word_lxor; [|apply word_mod].
  unfold word in *. rewrite Z.shiftr_div_pow2 by lia. split.
  - apply Z.div_pos; lia.
  - apply Z.le_lt_trans with x; [|lia].
    apply Z.div_le_upper_bound; [lia|]. 
    assert (1 <= 2 ^ n) by (apply (Z.pow_le_mono_r 2 0 n); lia). nia.
Qed.

Lemma put_upd (v : list Z) : forall (i : nat) (x : Z),
  (i < length v)%nat -> Rfc7693Text.put v i x = upd v i x.
Proof.
  unfold Rfc7693Text.put.
  induction v as [|y t IH]; intros [|i] x H; cbn in H; try lia.
  - reflexivity.
  - cbn [firstn skipn app upd]. f_equal. apply IH. lia.
Qed.

Lemma upd_length (v : list Z) : forall (i : nat) (x : Z),
  length (upd v i x) = length v.
Proof.
  induction v as [|y t IH]; intros [|i] x; cbn; try reflexivity.
  now rewrite IH.
Qed.

Lemma upd_Forall (P : Z -> Prop) (v : list Z) : forall (i : nat) (x : Z),
  Forall P v -> P x -> Forall P (upd v i x).
Proof.
  induction v as [|y t IH]; intros [|i] x Hv Hx; cbn; try assumption.
  - inversion Hv; subst. now constructor.
  - inversion Hv; subst. constructor; [assumption|now apply IH].
Qed.

Lemma get_word (v : list Z) (i : nat) : Forall word v -> word (get v i).
Proof.
  intros Hv. unfold get. destruct (nth_in_or_default i v 0) as [H| ->].
  - rewrite Forall_forall in Hv. now apply Hv.
  - apply word_0.
Qed.

Lemma words_upd (n : nat) (v : list Z) (i : nat) (x : Z) :
  words n v -> word x -> words n (upd v i x).
Proof.
  intros [Hl Hv] Hx. split; [now rewrite upd_length|now apply upd_Forall].
Qed.

Lemma add3_text (n : nat) (v : list Z) (a b : nat) (x : Z) :
  words n v -> (a < n)%nat ->
  Rfc7693Text.add3 v a b x = Blake2bSteps.add3 v a b x /\
  words n (Blake2bSteps.add3 v a b x).
Proof.
  intros Hv Ha. unfold Rfc7693Text.add3, Blake2bSteps.add3. split.
  - rewrite put_upd by (destruct Hv; lia). f_equal.
    unfold add, wrap, Rfc7693Text.at_, get, Rfc7693Text.w.
    now rewrite Z.add_mod_idemp_l by lia.
  - apply words_upd; [exact Hv|apply word_mod].
Qed.

Lemma add2_text (n : nat) (v : list Z) (c d : nat) :
  words n v -> (c < n)%nat ->
  Rfc7693Text.add2 v c d = Blake2bSteps.add2 v c d /\
  words n (Blake2bSteps.add2 v c d).
Proof.
  intros Hv Hc. unfold Rfc7693Text.add2, Blake2bSteps.add2. split.
  - rewrite put_upd by (destruct Hv; lia). reflexivity.
  - apply words_upd; [exact Hv|apply word_mod].
Qed.

Lemma xor_rotr_text (n : nat) (v : list Z) (d a : nat) (k : Z) :
  words n v -> (d < n)%nat -> 0 < k < 64 ->
  Rfc7693Text.xor_rotr v d a k = Blake2bSteps.xor_rotr v d a k /\
  words n (Blake2bSteps.xor_rotr v d a k).
Proof.
  intros Hv Hd Hk. unfold Rfc7693Text.xor_rotr, Blake2bSteps.xor_rotr.
  assert (Hx : word (Z.lxor (get v d) (get v a)))
    by (destruct Hv; apply word_lxor; now apply get_word).
  split.
  - rewrite put_upd by (destruct Hv; lia). f_equal.
    now apply rotr_text.
  - apply words_upd; [exact Hv|now apply word_rotr].
Qed.

Lemma G_steps (v : list Z) (a b c d : nat) (x y : Z) :
  Blake2b.G v a b c d x y =
  Blake2bSteps.xor_rotr
    (Blake2bSteps.add2
       (Blake2bSteps.xor_rotr
          (Blake2bSteps.add3
             (Blake2bSteps.xor_rotr
                (Blake2bSteps.add2
                   (Blake2bSteps.xor_rotr
                      (Blake2bSteps.add3 v a b x) d a 32) c d) b c 24) a b y)
          d a 16) c d) b c 63.
Proof. reflexivity. Qed.

Lemma G_text (v : list Z) (a b c d : nat) (x y : Z) :
  words 16 v -> (a < 16)%nat -> (b < 16)%nat -> (c < 16)%nat -> (d < 16)%nat ->
  Rfc7693Text.G v a b c d x y = Blake2b.G v a b c d x y /\
  words 16 (Blake2b.G v a b c d x y).
Proof.
  intros Hv Ha Hb Hc Hd. rewrite G_steps. unfold Rfc7693Text.G.
  unfold Rfc7693Text.R1, Rfc7693Text.R2, Rfc7693Text.R3, Rfc7693Text.R4.
  cbv zeta.
  destruct (@add3_text 16 v a b x Hv Ha) as [-> H1].
  destruct (@xor_rotr_text 16 _ d a 32 H1 Hd ltac:(lia)) as [-> H2].
  destruct (@add2_text 16 _ c d H2 Hc) as [-> H3].
  destruct (@xor_rotr_text 16 _ b c 24 H3 Hb ltac:(lia)) as [-> H4].
  destruct (@add3_text 16 _ a b y H4 Ha) as [-> H5].
  destruct (@xor_rotr_text 16 _ d a 16 H5 Hd ltac:(lia)) as [-> H6].
  destruct (@add2_text 16 _ c d H6 Hc) as [-> H7].
  destruct (@xor_rotr_text 16 _ b c 63 H7 Hb ltac:(lia)) as [-> H8].
  split; [reflexivity|exact H8].
Qed.

Lemma round_text (m : list Z) (s : list nat) (v : list Z) :
  words 16 v ->
  Rfc7693Text.round m s v = Blake2b.mix_round m s v /\
  words 16 (Blake2b.mix_round m s v).
Proof.
  intros Hv. unfold Rfc7693Text.round, Blake2b.mix_round. cbv zeta.
  unfold Rfc7693Text.at_, get.
  repeat match goal with
  | |- context [Rfc7693Text.G ?u ?a ?b ?c ?d ?x ?y] =>
      lazymatch u with
      | context [Rfc7693Text.G] => fail
      | _ =>
          let E := fresh "E" in let W := fresh "W" in
          destruct (@G_text u a b c d x y) as [E W];
          [first [exact Hv | assumption] | lia | lia | lia | lia |];
          rewrite E; clear E
      end
  end.
  split; [reflexivity|assumption].
Qed.

Lemma at_get : Rfc7693Text.at_ = get.
Proof. reflexivity. Qed.

Lemma w_64 : Rfc7693Text.w = 64.
Proof. reflexivity. Qed.

Lemma r_12 : Rfc7693Text.r = 12%nat.
Proof. reflexivity. Qed.

Lemma put_words (n : nat) (v : list Z) (i : nat) (x : Z) :
  words n v -> (i < n)%nat -> word x ->
  Rfc7693Text.put v i x = upd v i x /\ words n (upd v i x).
Proof.
  intros Hv Hi Hx. split; [|now apply words_upd].
  apply put_upd. destruct Hv. lia.
Qed.

Lemma IV_words : words 8 Rfc7693.IV.
Proof.
  rewrite IV_table. split; [reflexivity|].
  unfold Blake2b.blake2b_IV. repeat constructor; unfold word; lia.
Qed.

Lemma firstn_IV : firstn 8 Rfc7693.IV = Rfc7693.IV.
Proof. rewrite IV_table. reflexivity. Qed.

Lemma fold_left_inv {A B} (P : A -> Prop) (g1 g2 : A -> B -> A) :
  (forall a b, P a -> g1 a b = g2 a b /\ P (g2 a b)) ->
  forall (l : list B) (a : A),
    P a -> fold_left g1 l a = fold_left g2 l a /\ P (fold_left g2 l a).
Proof.
  intros H. induction l as [|b l IH]; intros a Ha.
  - split; [reflexivity|exact Ha].
  - destruct (H a b Ha) as [E W]. destruct (IH _ W) as [E2 W2].
    split; [|exact W2].
    change (fold_left g1 l (g1 a b) = fold_left g2 l (g2 a b)).
    rewrite E. exact E2.
Qed.

Lemma rounds_text (m : list Z) (l : list nat) (v : list Z) :
  words 16 v ->
  fold_left (fun v i => Rfc7693Text.round m (nth (i mod 10) Rfc7693.SIGMA []) v)
            l v =
  fold_left (fun v i => Blake2b.mix_round m (nth (i mod 10) Rfc7693.SIGMA []) v)
            l v /\
  words 16
    (fold_left (fun v i => Blake2b.mix_round m (nth (i mod 10) Rfc7693.SIGMA []) v)
               l v).
Proof.
  apply (@fold_left_inv _ _ (words 16)).
  intros a b Ha. exact (@round_text m (nth (b mod 10) Rfc7693.SIGMA []) a Ha).
Qed.

Lemma F_text (h m : list Z) (t : Z) (f : bool) :
  words 8 h -> 0 <= t < 2 ^ 128 ->
  Rfc7693Text.F h m t f = Rfc7693.F h m t f /\ words 8 (Rfc7693.F h m t f).
Proof.
  intros Hh Ht.
  assert (Hv0 : words 16 (h ++ Rfc7693.IV)).
  { destruct Hh as [Hl Hf]. destruct IV_words as [Il If]. split.
    - rewrite length_app, Hl, Il. reflexivity.
    - apply Forall_app. now split. }
  unfold Rfc7693Text.F, Rfc7693.F. cbv zeta.
  rewrite at_get, w_64, r_12.
  rewrite (@firstn_all2 _ 8 h) by (destruct Hh; lia). rewrite firstn_IV.
  set (v0 := h ++ Rfc7693.IV) in *.
  assert (Hhi : Z.shiftr t 64 = (t mod 2 ^ 128) / 2 ^ 64).
  { rewrite Z.shiftr_div_pow2 by lia. now rewrite Z.mod_small by lia. }
  rewrite Hhi.
  assert (Hx12 : word (Z.lxor (get v0 12) (t mod 2 ^ 64))).
  { apply word_lxor; [apply get_word; apply Hv0|apply word_mod]. }
  destruct (@put_words 16 v0 12 _ Hv0 ltac:(lia) Hx12) as [-> W12].
  set (v1 := upd v0 12 _) in *.
  assert (Hx13 : word (Z.lxor (get v1 13) ((t mod 2 ^ 128) / 2 ^ 64))).
  { apply word_lxor; [apply get_word; apply W12|].
    rewrite Z.mod_small by lia. unfold word. split.
    - apply Z.div_pos; lia.
    - apply Z.div_lt_upper_bound; lia. }
  destruct (@put_words 16 v1 13 _ W12 ltac:(lia) Hx13) as [-> W13].
  set (v2 := upd v1 13 _) in *.
  assert (Hx14 : word (Z.lxor (get v2 14) (2 ^ 64 - 1))).
  { apply word_lxor; [apply get_word; apply W13|unfold word; lia]. }
  destruct (@put_words 16 v2 14 _ W13 ltac:(lia) Hx14) as [E14 W14].
  rewrite E14.
  set (v3 := if f then upd v2 14 _ else v2) in *.
  assert (W3 : words 16 v3) by (subst v3; now destruct f).
  destruct (@rounds_text m (seq 0 12) v3 W3) as [-> WR].
  split; [reflexivity|]. split.
  - now rewrite length_map, length_seq.
  - apply Forall_forall. intros x Hx. apply in_map_iff in Hx.
    destruct Hx as (i & <- & _). destruct Hh as [_ Hh].
    apply word_lxor; [apply word_lxor|]; apply get_word; try assumption;
      apply WR.
Qed.

Lemma compress_blocks_fold (d : list bytes) :
  forall (hh : list Z) (i : nat) (ll : Z),
    d <> [] ->
    Rfc7693.compress_blocks hh i d ll =
    Rfc7693.F
      (fold_left
         (fun h j => Rfc7693.F h (Rfc7693.block_words (nth (j - i) d []))
                               (Z.of_nat ((j + 1) * Rfc7693.bb)) false)
         (seq i (length d - 1)) hh)
      (Rfc7693.block_words (nth (length d - 1) d [])) ll true.
Proof.
  induction d as [|b rest IH]; intros hh i ll H; [congruence|].
  destruct rest as [|b' rest'].
  - reflexivity.
  - rewrite compress_blocks_cons by discriminate.
    rewrite IH by discriminate.
    replace (length (b :: b' :: rest') - 1)%nat with (S (length rest'))
      by (cbn [length]; lia).
    replace (length (b' :: rest') - 1)%nat with (length rest')
      by (cbn [length]; lia).
    cbn [seq fold_left]. rewrite Nat.sub_diag.
    cbn [nth].
    match goal with
    | |- Rfc7693.F ?x ?mm ?l ?f = Rfc7693.F ?y _ _ _ =>
        apply (f_equal (fun z => Rfc7693.F z mm l f))
    end.
    apply fold_left_ext_in. intros j Hj y. apply in_seq in Hj.
    replace (j - i)%nat with (S (j - S i)) by lia. reflexivity.
Qed.

Lemma fold_F_text (d : list bytes) (l : list nat) :
  forall h : list Z,
    words 8 h ->
    (forall j, In j l -> Z.of_nat ((j + 1) * Rfc7693.bb) < 2 ^ 128) ->
    fold_left
      (fun h j => Rfc7693Text.F h (Rfc7693.block_words (nth j d []))
                                (Z.of_nat ((j + 1) * Rfc7693.bb)) false) l h =
    fold_left
      (fun h j => Rfc7693.F h (Rfc7693.block_words (nth j d []))
                            (Z.of_nat ((j + 1) * Rfc7693.bb)) false) l h /\
    words 8
      (fold_left
         (fun h j => Rfc7693.F h (Rfc7693.block_words (nth j d []))
                               (Z.of_nat ((j + 1) * Rfc7693.bb)) false) l h).
Proof.
  induction l as [|j l IH]; intros h Hh Hl; [now split|].
  cbn [fold_left].
  destruct (@F_text h (Rfc7693.block_words (nth j d []))
                    (Z.of_nat ((j + 1) * Rfc7693.bb)) false Hh) as [-> W].
  { split; [lia|]. apply Hl. now left. }
  apply IH; [exact W|]. intros k Hk. apply Hl. now right.
Qed.

Lemma blocks_length (n : nat) : forall data, length (Rfc7693.blocks n data) = n.
Proof. induction n as [|n IH]; intros data; cbn; [reflexivity|now rewrite IH]. Qed.

Lemma dd_bound (ll : nat) : ((Rfc7693.dd ll - 1) * 128 <= ll)%nat.
Proof.
  unfold Rfc7693.dd, Rfc7693.bb.
  pose proof (Nat.Div0.mul_div_le (ll + (128 - 1)) 128) as H.
  remember ((ll + (128 - 1)) / 128)%nat as q. lia.
Qed.

Lemma BLAKE2b_text (msg : bytes) (nn : nat) :
  Z.of_nat nn < 2 ^ 64 -> Z.of_nat (length msg) < 2 ^ 128 ->
  Rfc7693Text.BLAKE2b msg nn = Rfc7693.BLAKE2b msg nn.
Proof.
  intros Hnn Hll. unfold Rfc7693Text.BLAKE2b, Rfc7693.BLAKE2b. cbv zeta.
  rewrite at_get.
  assert (Hx : word (Z.lxor (get Rfc7693.IV 0)
                       (Z.lxor 0x01010000 (Z.lxor (Z.shiftl 0 8) (Z.of_nat nn))))).
  { apply word_lxor; [apply get_word, IV_words|].
    apply word_lxor; [unfold word; lia|].
    apply word_lxor; [rewrite Z.shiftl_0_l; apply word_0|unfold word; lia]. }
  destruct (@put_words 8 Rfc7693.IV 0 _ IV_words ltac:(lia) Hx) as [-> W0].
  set (h0 := upd Rfc7693.IV 0 _) in *.
  set (d := Rfc7693.blocks (Rfc7693.dd (length msg)) (Rfc7693.padded msg)).
  assert (Hd : length d = Rfc7693.dd (length msg)) by apply blocks_length.
  rewrite (@compress_blocks_fold d h0 0 (Z.of_nat (length msg)))
    by apply blocks_nonempty.
  rewrite Hd.
  rewrite (@fold_left_ext_in _ _
             (fun h j => Rfc7693.F h (Rfc7693.block_words (nth (j - 0) d []))
                                   (Z.of_nat ((j + 1) * Rfc7693.bb)) false)
             (fun h j => Rfc7693.F h (Rfc7693.block_words (nth j d []))
                                   (Z.of_nat ((j + 1) * Rfc7693.bb)) false))
    by (intros j _ y; now rewrite Nat.sub_0_r).
  destruct (@fold_F_text d (seq 0 (Rfc7693.dd (length msg) - 1)) h0 W0)
    as [-> W1].
  { intros j Hj. apply in_seq in Hj. pose proof (dd_bound (length msg)) as Hb.
    unfold Rfc7693.bb. lia. }
  destruct (@F_text _ (Rfc7693.block_words
                         (nth (Rfc7693.dd (length msg) - 1) d []))
                    (Z.of_nat (length msg)) true W1 ltac:(lia)) as [-> _].
  reflexivity.
Qed.

End Rfc7693TextRefinement.

(** The test vector of RFC 7693, appendix A: BLAKE2b-512 of the three bytes
    [abc]. *)
Example Rfc7693Text_appendix_A :
  Rfc7693Text.BLAKE2b (list_byte_of_string "abc") 64 =
  map byte_of_N
    [0xBA; 0x80; 0xA5; 0x3F; 0x98; 0x1C; 0x4D; 0x0D;
     0x6A; 0x27; 0x97; 0xB6; 0x9F; 0x12; 0xF6; 0xE9;
     0x4C; 0x21; 0x2F; 0x14; 0x68; 0x5A; 0xC4; 0xB7;
     0x4B; 0x12; 0xBB; 0x6F; 0xDB; 0xFF; 0xA2; 0xD1;
     0x7D; 0x87; 0xC5; 0x39; 0x2A; 0xAB; 0x79; 0x2D;
     0xC2; 0x52; 0xD5; 0xDE; 0x45; 0x33; 0xCC; 0x95;
     0x18; 0xD3; 0x8A; 0xA8; 0xDB; 0xF1; 0x92; 0x5A;
     0xB9; 0x23; 0x86; 0xED; 0xD4; 0x00; 0x99; 0x23]%N.
Proof. vm_compute. reflexivity. Qed.

(** X4: the hash object of [h32] (parameter block, update loop, final), for
    every input within the length limit of the RFC and every digest size
    from 1 to 64, is constructed without error, and its digest is BLAKE2b as
    RFC 7693 writes it (its own mixing function, rotation and compression
    loop), of the requested length. *)
Theorem X4_blake2b_is_rfc7693 (data : bytes) (nn : nat) :
  (1 <= nn <= 64)%nat ->
  (Z.of_nat (length data) < 2 ^ 128)%Z ->
  exists st, Blake2b.blake2b data nn = Ok st /\
             Blake2b.digest st = Rfc7693Text.BLAKE2b data nn /\
             length (Blake2b.digest st) = nn.
Proof.
  intros H Hl. destruct (@blake2b_rfc data nn H) as (st & Hst & Hd).
  exists st. split; [exact Hst|]. rewrite Hd. split.
  - symmetry. apply BLAKE2b_text; lia.
  - apply BLAKE2b_length. lia.
Qed.

Lemma X4_blake2b_is_rfc7693_witness :
  exists st, Blake2b.blake2b (repeat "a"%byte 300) 16 = Ok st /\
             Blake2b.digest st = Rfc7693Text.BLAKE2b (repeat "a"%byte 300) 16 /\
             length (Blake2b.digest st) = 16%nat.
Proof.
  apply X4_blake2b_is_rfc7693; [lia|vm_compute; reflexivity].
Defined.

(* ================================================================== *)
(** * Further properties: encodings are injective *)

Section Utf8Injective.
Local Open Scope N_scope.

Lemma utf8_first_1 (n0 : N) (rest : bytes) :
  n0 < 0x80 -> utf8_first (byte_of_N n0 :: rest) = Some (n0, rest).
Proof.
  intros H. unfold utf8_first.
  rewrite byte_of_N_small by lia.
  now replace (n0 <? 0x80) with true by (symmetry; apply N.ltb_lt; lia).
Qed.

Lemma utf8_first_2 (n0 n1 : N) (rest : bytes) :
  0x80 <= n0 < 0xE0 -> n1 < 256 ->
  utf8_first (byte_of_N n0 :: byte_of_N n1 :: rest) =
  Some ((n0 - 192) * 64 + (n1 - 128), rest).
Proof.
  intros H0 H1. unfold utf8_first.
  rewrite !byte_of_N_small by lia.
  replace (n0 <? 0x80) with false by (symmetry; apply N.ltb_ge; lia).
  now replace (n0 <? 0xE0) with true by (symmetry; apply N.ltb_lt; lia).
Qed.

Lemma utf8_first_3 (n0 n1 n2 : N) (rest : bytes) :
  0xE0 <= n0 < 0xF0 -> n1 < 256 -> n2 < 256 ->
  utf8_first (byte_of_N n0 :: byte_of_N n1 :: byte_of_N n2 :: rest) =
  Some ((n0 - 224) * 4096 + (n1 - 128) * 64 + (n2 - 128), rest).
Proof.
  intros H0 H1 H2. unfold utf8_first.
  rewrite !byte_of_N_small by lia.
  replace (n0 <? 0x80) with false by (symmetry; apply N.ltb_ge; lia).
  replace (n0 <? 0xE0) with false by (symmetry; apply N.ltb_ge; lia).
  now replace (n0 <? 0xF0) with true by (symmetry; apply N.ltb_lt; lia).
Qed.

Lemma utf8_first_4 (n0 n1 n2 n3 : N) (rest : bytes) :
  0xF0 <= n0 < 256 -> n1 < 256 -> n2 < 256 -> n3 < 256 ->
  utf8_first (byte_of_N n0 :: byte_of_N n1 :: byte_of_N n2 :: byte_of_N n3 :: rest) =
  Some ((n0 - 240) * 262144 + (n1 - 128) * 4096 + (n2 - 128) * 64 + (n3 - 128),
        rest).
Proof.
  intros H0 H1 H2 H3. unfold utf8_first.
  rewrite !byte_of_N_small by lia.
  replace (n0 <? 0x80) with false by (symmetry; apply N.ltb_ge; lia).
  replace (n0 <? 0xE0) with false by (symmetry; apply N.ltb_ge; lia).
  now replace (n0 <? 0xF0) with false by (symmetry; apply N.ltb_ge; lia).
Qed.

Lemma utf8_first_octets (c : N) (rest : bytes) :
  c < 0x110000 ->
  utf8_first (map byte_of_N (Rfc3629.octets c) ++ rest) = Some (c, rest).
Proof.
  intros H. unfold Rfc3629.octets.
  pose proof (N.mod_lt c 64 ltac:(discriminate)) as M0.
  pose proof (N.mod_lt (c / 64) 64 ltac:(discriminate)) as M1.
  pose proof (N.mod_lt (c / 4096) 64 ltac:(discriminate)) as M2.
  pose proof (N.div_mod c 64 ltac:(discriminate)) as D0.
  pose proof (N.div_mod (c / 64) 64 ltac:(discriminate)) as D1.
  pose proof (N.div_mod (c / 4096) 64 ltac:(discriminate)) as D2.
  rewrite N.Div0.div_div in D1. change (64 * 64) with 4096 in D1.
  rewrite N.Div0.div_div in D2. change (4096 * 64) with 262144 in D2.
  set (q1 := c / 64) in *. set (q2 := c / 4096) in *. set (q3 := c / 262144) in *.
  set (r0 := c mod 64) in *. set (r1 := q1 mod 64) in *. set (r2 := q2 mod 64) in *.
  destruct (N.leb_spec c 0x7F) as [L1|L1].
  { cbn [map app]. now apply utf8_first_1; lia. }
  destruct (N.leb_spec c 0x7FF) as [L2|L2].
  { assert (q1 < 32) by (apply N.Div0.div_lt_upper_bound; lia).
    cbn [map app]. rewrite utf8_first_2 by lia. do 2 f_equal. lia. }
  destruct (N.leb_spec c 0xFFFF) as [L3|L3].
  { assert (q2 < 16) by (apply N.Div0.div_lt_upper_bound; lia).
    cbn [map app]. rewrite utf8_first_3 by lia. do 2 f_equal. lia. }
  assert (q3 < 8) by (apply N.Div0.div_lt_upper_bound; lia).
  cbn [map app]. rewrite utf8_first_4 by lia. do 2 f_equal. lia.
Qed.

Lemma utf8_first_encode_char (c : codepoint) (bs rest : bytes) :
  Utf8.encode_char (ord c) = Some bs ->
  utf8_first (bs ++ rest) = Some (ord c, rest).
Proof.
  rewrite (encode_char_rfc (ord_lt c)).
  destruct (Rfc3629.scalar_valueb (ord c)); [|discriminate].
  intros H. injection H as <-. apply utf8_first_octets, ord_lt.
Qed.

Lemma encode_from_inj (s1 : str) :
  forall (s2 : str) (i j : nat) (data : bytes),
    Utf8.encode_from i s1 = Ok data -> Utf8.encode_from j s2 = Ok data -> s1 = s2.
Proof.
  induction s1 as [|c1 r1 IH]; intros s2 i j data H1 H2.
  - cbn in H1. injection H1 as <-.
    destruct s2 as [|c2 r2]; [reflexivity|].
    cbn [Utf8.encode_from] in H2.
    destruct (Utf8.encode_char (ord c2)) as [bs|] eqn:E; [|discriminate].
    destruct (Utf8.encode_from (S j) r2) as [tl|]; [|discriminate].
    cbn [bind] in H2. injection H2 as H2.
    pose proof (utf8_first_encode_char c2 tl E) as D. rewrite H2 in D. discriminate D.
  - cbn [Utf8.encode_from] in H1.
    destruct (Utf8.encode_char (ord c1)) as [bs1|] eqn:E1; [|discriminate].
    destruct (Utf8.encode_from (S i) r1) as [tl1|] eqn:T1; [|discriminate].
    cbn [bind] in H1. injection H1 as <-.
    pose proof (utf8_first_encode_char c1 tl1 E1) as D1.
    destruct s2 as [|c2 r2].
    + cbn in H2. injection H2 as H2. rewrite <- H2 in D1. discriminate D1.
    + cbn [Utf8.encode_from] in H2.
      destruct (Utf8.encode_char (ord c2)) as [bs2|] eqn:E2; [|discriminate].
      destruct (Utf8.encode_from (S j) r2) as [tl2|] eqn:T2; [|discriminate].
      cbn [bind] in H2. injection H2 as H2.
      pose proof (utf8_first_encode_char c2 tl2 E2) as D2.
      rewrite H2, D1 in D2. injection D2 as Hc Ht.
      f_equal; [now apply cp_ext|].
      subst tl2. exact (IH r2 _ _ _ T1 T2).
Qed.

End Utf8Injective.

Lemma unhex_pair_hexdigit (b : byte) :
  unhex_pair (Hex.hexdigit (N.shiftr (Byte.to_N b) 4))
             (Hex.hexdigit (N.land (Byte.to_N b) 0x0f)) = b.
Proof. destruct b; reflexivity. Qed.

Lemma strhex_inj (d1 : bytes) : forall d2, Hex.strhex d1 = Hex.strhex d2 -> d1 = d2.
Proof.
  unfold Hex.strhex.
  induction d1 as [|b1 r1 IH]; intros [|b2 r2] H; try reflexivity;
    try discriminate H.
  cbn [flat_map app] in H. injection H as Hhi Hlo Hr.
  f_equal; [|now apply IH].
  rewrite <- (unhex_pair_hexdigit b1), <- (unhex_pair_hexdigit b2).
  f_equal; [exact Hhi|exact Hlo].
Qed.

(** X5: [str.encode()] is injective: two strings that encode to the same
    bytes are the same string. *)
Theorem X5_utf8_encode_injective (s1 s2 : str) (data : bytes) :
  Utf8.encode s1 = Ok data -> Utf8.encode s2 = Ok data -> s1 = s2.
Proof. unfold Utf8.encode. apply encode_from_inj. Qed.

Lemma X5_utf8_encode_injective_witness :
  lit "C.Jobs" = map chr [67; 46; 74; 111; 98; 115]%N.
Proof.
  apply (@X5_utf8_encode_injective _ _ (list_byte_of_string "C.Jobs"));
    reflexivity.
Defined.

(** X6: the hexadecimal rendering loses nothing: two byte strings have the
    same rendering exactly when they are equal, so two hash objects with the
    same [hexdigest] have the same digest bytes. *)
Theorem X6_hexdigest_injective :
  (forall d1 d2 : bytes, Hex.strhex d1 = Hex.strhex d2 <-> d1 = d2) /\
  (forall st1 st2 : Blake2b.blake2b_state,
      hexdigest st1 = hexdigest st2 <-> Blake2b.digest st1 = Blake2b.digest st2).
Proof.
  split.
  - intros d1 d2. split; [apply strhex_inj|now intros ->].
  - intros st1 st2. unfold hexdigest. split; [apply strhex_inj|now intros ->].
Qed.

(** X7: for two strings that can be encoded, the identifiers are equal
    exactly when the 16-byte BLAKE2b digests (RFC 7693) of their UTF-8
    encodings are equal, and the encodings are equal exactly when the strings
    are: encoding and hexadecimal rendering add no collision of their own. *)
Theorem X7_identifier_equality (s1 s2 : str) (b1 b2 : bytes) :
  Utf8.encode s1 = Ok b1 -> Utf8.encode s2 = Ok b2 ->
  (h32 s1 = h32 s2 <-> Rfc7693.BLAKE2b b1 16 = Rfc7693.BLAKE2b b2 16) /\
  (b1 = b2 <-> s1 = s2).
Proof.
  intros E1 E2. split.
  - unfold h32. rewrite E1, E2. cbn [bind].
    destruct (@blake2b_rfc b1 16 ltac:(lia)) as (st1 & -> & D1).
    destruct (@blake2b_rfc b2 16 ltac:(lia)) as (st2 & -> & D2).
    cbn [bind]. unfold hexdigest. rewrite D1, D2. split.
    + intros H. injection H as H. now apply strhex_inj.
    + now intros ->.
  - split.
    + intros ->. exact (encode_from_inj _ _ _ _ E1 E2).
    + intros ->. rewrite E1 in E2. now injection E2.
Qed.

Lemma X7_identifier_equality_witness :
  (h32 (lit "C.Jobs") = h32 (lit "C.Policy") <->
   Rfc7693.BLAKE2b (list_byte_of_string "C.Jobs") 16 =
   Rfc7693.BLAKE2b (list_byte_of_string "C.Policy") 16) /\
  (list_byte_of_string "C.Jobs" = list_byte_of_string "C.Policy" <->
   lit "C.Jobs" = lit "C.Policy").
Proof.
  apply (@X7_identifier_equality (lit "C.Jobs") (lit "C.Policy")); reflexivity.
Defined.

(* ================================================================== *)
(** * Further properties: the mapping as a dictionary *)

Lemma str_eqb_neq (a b : str) : a <> b -> str_eqb a b = false.
Proof.
  intros H. destruct (str_eqb a b) eqn:E; [|reflexivity].
  apply str_eqb_eq in E. contradiction.
Qed.

Lemma dict_get_setitem_same {V} (d : dict V) (k : str) (v : V) :
  dict_get (dict_setitem d k v) k = Some v.
Proof.
  induction d as [|[k' v'] d IH]; cbn [dict_setitem dict_get].
  - now rewrite str_eqb_refl.
  - destruct (str_eqb k' k) eqn:E; cbn [dict_get]; rewrite E; [reflexivity|exact IH].
Qed.

Lemma dict_get_setitem_other {V} (d : dict V) (k k0 : str) (v : V) :
  k <> k0 -> dict_get (dict_setitem d k v) k0 = dict_get d k0.
Proof.
  intros Hne. induction d as [|[k' v'] d IH]; cbn [dict_setitem dict_get].
  - now rewrite str_eqb_neq.
  - destruct (str_eqb k' k) eqn:E; cbn [dict_get].
    + apply str_eqb_eq in E. subst k'. now rewrite (str_eqb_neq Hne).
    + now rewrite IH.
Qed.

Lemma dict_get_In_keys {V} (d : dict V) (k : str) (v : V) :
  dict_get d k = Some v -> In k (keys d).
Proof.
  induction d as [|[k' v'] d IH]; cbn [dict_get keys map fst]; [discriminate|].
  destruct (str_eqb k' k) eqn:E.
  - apply str_eqb_eq in E. now left.
  - intros H. right. now apply IH.
Qed.

Lemma add_key_NoDup (ks : list str) (k : str) : NoDup ks -> NoDup (add_key ks k).
Proof.
  intros H. unfold add_key.
  destruct (existsb (fun k' => str_eqb k' k) ks) eqn:E; [exact H|].
  apply NoDup_app; [exact H|repeat constructor; intros []|].
  intros x Hx Hk. destruct Hk as [Hk|[]]. subst x.
  assert (existsb (fun k' => str_eqb k' k) ks = true); [|congruence].
  apply existsb_exists. exists k. split; [exact Hx|apply str_eqb_refl].
Qed.

(** What the comprehension keeps true of its accumulator. *)
Lemma dict_comp_lookup (names : list str) :
  forall (acc m : dict str),
    NoDup (keys acc) ->
    (forall k v, dict_get acc k = Some v -> h32 k = Ok v) ->
    dict_comp names acc = Ok m ->
    NoDup (keys m) /\
    (forall k v, dict_get m k = Some v -> h32 k = Ok v) /\
    (forall k, In k names \/ In k (keys acc) -> exists v, dict_get m k = Some v) /\
    (forall k, In k (keys m) -> In k names \/ In k (keys acc)).
Proof.
  induction names as [|name rest IH]; intros acc m Hnd Hacc Hm.
  - cbn in Hm. injection Hm as <-. repeat split; try assumption.
    + intros k [[]|Hk]. unfold keys in Hk. clear Hnd Hacc.
      induction acc as [|[k' v'] acc IHa]; [contradiction|].
      cbn [dict_get]. destruct (str_eqb k' k) eqn:E; [eauto|].
      apply IHa. destruct Hk as [Hk|Hk]; [|exact Hk].
      cbn in Hk. subst k'. now rewrite str_eqb_refl in E.
    + intros k Hk. now right.
  - cbn [dict_comp] in Hm. destruct (h32 name) as [v|e] eqn:Hv; [|discriminate].
    cbn [bind] in Hm.
    apply IH in Hm.
    + destruct Hm as (N & G & T & K). repeat split; [exact N|exact G| |].
      * intros k [[<-|Hk]|Hk].
        -- apply T. right. rewrite dict_setitem_keys. unfold add_key.
           destruct (existsb (fun k' => str_eqb k' name) (keys acc)) eqn:E.
           ++ apply existsb_exists in E as (x & Hx & Ex).
              apply str_eqb_eq in Ex. now subst x.
           ++ apply in_or_app. right. now left.
        -- apply T. now left.
        -- apply T. right. rewrite dict_setitem_keys. unfold add_key.
           destruct (existsb (fun k' => str_eqb k' name) (keys acc));
             [exact Hk|apply in_or_app; now left].
      * intros k Hk. apply K in Hk as [Hk|Hk]; [left; now right|].
        rewrite dict_setitem_keys in Hk. unfold add_key in Hk.
        destruct (existsb (fun k' => str_eqb k' name) (keys acc)); [now right|].
        apply in_app_or in Hk as [Hk|[<-|[]]]; [now right|left; now left].
    + rewrite dict_setitem_keys. now apply add_key_NoDup.
    + intros k v0 Hk.
      destruct (str_eqb name k) eqn:E.
      * apply str_eqb_eq in E. subst k.
        rewrite dict_get_setitem_same in Hk. now injection Hk as <-.
      * rewrite dict_get_setitem_other in Hk; [now apply Hacc|].
        intros ->. now rewrite str_eqb_refl in E.
Qed.

(** X9: whatever the list of names (repetitions allowed), the mapping the
    comprehension returns has no key twice, holds exactly the names of the
    list as keys, and looking up a name gives [h32] of that name. *)
Theorem X9_mapping_lookup (names : list str) :
  Forall no_surrogate names ->
  exists m,
    dict_comp names [] = Ok m /\
    NoDup (keys m) /\
    (forall k, In k (keys m) <-> In k names) /\
    (forall k, In k names -> exists v, dict_get m k = Some v /\ h32 k = Ok v) /\
    (forall k v, dict_get m k = Some v -> In k names /\ h32 k = Ok v).
Proof.
  intros Hs. destruct (@dict_comp_total names [] Hs) as [m Hm].
  destruct (@dict_comp_lookup names [] m) as (N & G & T & K);
    [constructor|discriminate|exact Hm|].
  exists m. split; [exact Hm|]. split; [exact N|]. split; [|split].
  - intros k. split.
    + intros Hk. destruct (K k Hk) as [H|[]]. exact H.
    + intros Hk. destruct (T k (or_introl Hk)) as [v Hv].
      exact (dict_get_In_keys _ _ Hv).
  - intros k Hk. destruct (T k (or_introl Hk)) as [v Hv].
    exists v. split; [exact Hv|exact (G _ _ Hv)].
  - intros k v Hv. split; [|exact (G _ _ Hv)].
    destruct (K k (dict_get_In_keys _ _ Hv)) as [H|[]]. exact H.
Qed.

Lemma X9_mapping_lookup_witness :
  exists m,
    dict_comp [lit "C.Jobs"; lit "C.Policy"; lit "C.Jobs"] [] = Ok m /\
    NoDup (keys m) /\
    (forall k, In k (keys m) <-> In k [lit "C.Jobs"; lit "C.Policy"; lit "C.Jobs"]) /\
    (forall k, In k [lit "C.Jobs"; lit "C.Policy"; lit "C.Jobs"] ->
               exists v, dict_get m k = Some v /\ h32 k = Ok v) /\
    (forall k v, dict_get m k = Some v ->
                 In k [lit "C.Jobs"; lit "C.Policy"; lit "C.Jobs"] /\ h32 k = Ok v).
Proof. apply X9_mapping_lookup. repeat constructor. Defined.

Lemma encode_from_ok (s : str) :
  forall (i : nat) (data : bytes), Utf8.encode_from i s = Ok data -> no_surrogate s.
Proof.
  induction s as [|c s IH]; intros i data H; [constructor|].
  cbn [Utf8.encode_from] in H.
  destruct (Utf8.encode_char (ord c)) as [bs|] eqn:Ec; [|discriminate].
  destruct (Utf8.encode_from (S i) s) as [tl|] eqn:Et; [|discriminate].
  constructor; [|exact (IH _ _ Et)].
  destruct (Utf8.is_surrogate (ord c)) eqn:Es; [|reflexivity].
  apply encode_char_None in Es. congruence.
Qed.

Lemma h32_ok_no_surrogate (s d : str) : h32 s = Ok d -> no_surrogate s.
Proof.
  unfold h32, Utf8.encode.
  destruct (Utf8.encode_from 0 s) as [data|] eqn:E; [|discriminate].
  intros _. exact (encode_from_ok _ _ E).
Qed.

(** The comprehension stops at the first name that cannot be hashed. *)
Lemma dict_comp_raise (names : list str) :
  forall (acc : dict str) (e : exn),
    dict_comp names acc = Raise e ->
    exists pre name post,
      names = pre ++ name :: post /\ Forall no_surrogate pre /\ h32 name = Raise e.
Proof.
  induction names as [|name rest IH]; intros acc e H; [discriminate|].
  cbn [dict_comp] in H. destruct (h32 name) as [v|e'] eqn:Hv.
  - cbn [bind] in H. destruct (IH _ _ H) as (pre & bad & post & -> & Hpre & Hbad).
    exists (name :: pre), bad, post. repeat split; [|exact Hbad].
    constructor; [exact (h32_ok_no_surrogate _ Hv)|exact Hpre].
  - cbn [bind] in H. injection H as <-.
    exists [], name, rest. repeat split; [constructor|exact Hv].
Qed.

Lemma dict_comp_ok (names : list str) :
  forall (acc m : dict str), dict_comp names acc = Ok m -> Forall no_surrogate names.
Proof.
  induction names as [|name rest IH]; intros acc m H; [constructor|].
  cbn [dict_comp] in H. destruct (h32 name) as [v|e] eqn:Hv; [|discriminate].
  cbn [bind] in H. constructor; [exact (h32_ok_no_surrogate _ Hv)|exact (IH _ _ H)].
Qed.

(** X10: the comprehension returns only when no name holds a surrogate, and
    otherwise stops at the first name that holds one: the exception is the
    UnicodeEncodeError of that name, at the index of its first surrogate;
    the names before it were hashed, the names after it are not looked at. *)
Theorem X10_comprehension_failure (names : list str) :
  (forall m, dict_comp names [] = Ok m -> Forall no_surrogate names) /\
  (forall e, dict_comp names [] = Raise e ->
     exists pre name post i c,
       names = pre ++ name :: post /\
       Forall no_surrogate pre /\
       e = UnicodeEncodeError i /\
       nth_error name i = Some c /\
       Utf8.is_surrogate (ord c) = true /\
       no_surrogate (firstn i name)).
Proof.
  split; [intros m; apply dict_comp_ok|].
  intros e H.
  destruct (dict_comp_raise _ _ H) as (pre & name & post & -> & Hpre & Hbad).
  unfold h32, Utf8.encode in Hbad.
  destruct (Utf8.encode_from 0 name) as [data|e'] eqn:E.
  - cbn [bind] in Hbad.
    destruct (@blake2b_rfc data 16 ltac:(lia)) as (st & Hst & _).
    rewrite Hst in Hbad. discriminate.
  - cbn [bind] in Hbad. injection Hbad as <-.
    destruct (encode_from_raise _ _ E) as (j & c & -> & Hn & Hs & Hf).
    exists pre, name, post, j, c. repeat split; assumption.
Qed.

Lemma X10_comprehension_failure_witness :
  exists pre name post i c,
    [lit "C.Jobs"; lit "C." ++ [chr 0xDC80]; lit "C.Runner"] = pre ++ name :: post /\
    Forall no_surrogate pre /\
    UnicodeEncodeError 2 = UnicodeEncodeError i /\
    nth_error name i = Some c /\
    Utf8.is_surrogate (ord c) = true /\
    no_surrogate (firstn i name).
Proof.
  apply (proj2 (X10_comprehension_failure
                  [lit "C.Jobs"; lit "C." ++ [chr 0xDC80]; lit "C.Runner"])).
  reflexivity.
Defined.

(* ================================================================== *)
(** * Further properties: the encoder and the text stream *)

Lemma encode_char_length (ch : N) (bs : bytes) :
  Utf8.encode_char ch = Some bs -> (1 <= length bs <= 4)%nat.
Proof.
  unfold Utf8.encode_char.
  repeat match goal with
         | |- context [if ?b then _ else _] => destruct b
         end; intros H; try discriminate H; injection H as <-; cbn [length]; lia.
Qed.

Lemma encode_from_length (s : str) :
  forall (i : nat) (data : bytes),
    Utf8.encode_from i s = Ok data ->
    (length s <= length data <= 4 * length s)%nat.
Proof.
  induction s as [|c s IH]; intros i data H.
  - cbn in H. injection H as <-. cbn. lia.
  - cbn [Utf8.encode_from] in H.
    destruct (Utf8.encode_char (ord c)) as [bs|] eqn:Ec; [|discriminate].
    destruct (Utf8.encode_from (S i) s) as [tl|] eqn:Et; [|discriminate].
    cbn [bind] in H. injection H as <-.
    pose proof (encode_char_length _ Ec). pose proof (IH _ _ Et).
    rewrite length_app. cbn [length]. lia.
Qed.

Lemma encode_from_app (a b : str) :
  forall i : nat,
    Utf8.encode_from i (a ++ b) =
    (x <- Utf8.encode_from i a ;;
     y <- Utf8.encode_from (i + length a) b ;;
     Ok (x ++ y)).
Proof.
  induction a as [|c a IH]; intros i.
  - cbn [app Utf8.encode_from bind length]. rewrite Nat.add_0_r.
    now destruct (Utf8.encode_from i b).
  - cbn [app Utf8.encode_from length].
    destruct (Utf8.encode_char (ord c)) as [bs|]; [|reflexivity].
    rewrite IH. replace (i + S (length a))%nat with (S i + length a)%nat by lia.
    destruct (Utf8.encode_from (S i) a) as [x|]; [|reflexivity].
    cbn [bind].
    destruct (Utf8.encode_from (S i + length a) b) as [y|]; [|reflexivity].
    cbn [bind]. now rewrite app_assoc.
Qed.

(** X11: the encoded form of a string has at least as many bytes as the
    string has characters and at most four times as many; for an ASCII
    string it is the string's own characters, byte for character. *)
Theorem X11_utf8_length (s : str) (data : bytes) :
  Utf8.encode s = Ok data ->
  (length s <= length data <= 4 * length s)%nat /\
  (is_ascii s -> data = Pretty.ascii_bytes s).
Proof.
  unfold Utf8.encode. intros H. split; [exact (encode_from_length _ _ H)|].
  intros Ha. rewrite (encode_from_ascii 0 Ha) in H. now injection H.
Qed.

Lemma X11_utf8_length_witness :
  (length (map chr [104; 233; 0x20AC; 0x1F600]%N)
   <= length (map byte_of_N [104; 195; 169; 226; 130; 172; 240; 159; 152; 128]%N)
   <= 4 * length (map chr [104; 233; 0x20AC; 0x1F600]%N))%nat /\
  (is_ascii (map chr [104; 233; 0x20AC; 0x1F600]%N) ->
   map byte_of_N [104; 195; 169; 226; 130; 172; 240; 159; 152; 128]%N =
   Pretty.ascii_bytes (map chr [104; 233; 0x20AC; 0x1F600]%N)).
Proof. apply X11_utf8_length. reflexivity. Defined.

(* ================================================================== *)
(** * Further properties: the document, line by line *)

Section JsonLines.
Import Json Pretty.
Local Open Scope N_scope.

Lemma printable_app (a b : str) : printable a -> printable b -> printable (a ++ b).
Proof. unfold printable. intros Ha Hb. apply Forall_app. now split. Qed.

Lemma printable_check (s : str) :
  forallb (fun c => (0x20 <=? ord c) && (ord c <=? 0x7e)) s = true -> printable s.
Proof.
  intros H. apply Forall_forall. intros c Hc.
  rewrite forallb_forall in H. specialize (H c Hc).
  apply andb_true_iff in H as [H1 H2].
  apply N.leb_le in H1. apply N.leb_le in H2. lia.
Qed.

Lemma hexdigit_printable (i : N) : i < 16 -> 0x20 <= ord (Hex.hexdigit i) <= 0x7e.
Proof.
  intros H.
  assert (E : (0x20 <=? ord (Hex.hexdigit i)) && (ord (Hex.hexdigit i) <=? 0x7e) = true).
  { apply (@N_forall_below
             (fun i => (0x20 <=? ord (Hex.hexdigit i)) && (ord (Hex.hexdigit i) <=? 0x7e))
             16); [reflexivity|exact H]. }
  apply andb_true_iff in E as [H1 H2].
  apply N.leb_le in H1. apply N.leb_le in H2. lia.
Qed.

Lemma format_04x_printable (n : N) : printable (format_04x n).
Proof.
  unfold format_04x.
  repeat constructor; apply hexdigit_printable; now apply N.mod_lt.
Qed.

Lemma u_escape_printable (n : N) : printable (backslash :: lit "u" ++ format_04x n).
Proof.
  constructor; [cbn; lia|].
  apply printable_app; [now apply printable_check|apply format_04x_printable].
Qed.

Lemma replace_printable (c : codepoint) : printable (replace c).
Proof.
  unfold replace, ESCAPE_DCT.
  repeat match goal with
         | |- context [if ?b then _ else _] => destruct b
         end;
    try (now apply printable_check);
    try apply u_escape_printable.
  apply printable_app; apply u_escape_printable.
Qed.

Lemma encode_basestring_ascii_printable (s : str) :
  printable (encode_basestring_ascii s).
Proof.
  unfold encode_basestring_ascii.
  apply printable_app; [now apply printable_check|].
  apply printable_app; [|now apply printable_check].
  induction s as [|c s IH]; [constructor|].
  cbn [flat_map]. apply printable_app; [|exact IH].
  unfold ESCAPE_ASCII.
  destruct (ord c =? 92); [apply replace_printable|].
  destruct (ord c =? 34); [apply replace_printable|].
  cbn [orb].
  destruct (N.leb_spec 0x20 (ord c)); [|apply replace_printable].
  destruct (N.leb_spec (ord c) 0x7e); [|apply replace_printable].
  cbn [andb negb]. constructor; [lia|constructor].
Qed.

Lemma json_member_printable (kv : str * str) : printable (json_member kv).
Proof.
  unfold json_member.
  apply printable_app; [now apply printable_check|].
  apply printable_app; [apply encode_basestring_ascii_printable|].
  apply printable_app; [now apply printable_check|].
  apply encode_basestring_ascii_printable.
Qed.

(** Printable text holds no line feed. *)
Lemma printable_no_lf (s : str) :
  printable s ->
  Forall (fun b => Byte.eqb b "010"%byte = false) (ascii_bytes s).
Proof.
  unfold printable, ascii_bytes. intros H. apply Forall_map.
  revert H. apply Forall_impl. intros c Hc.
  destruct (Byte.eqb (byte_of_N (ord c)) "010"%byte) eqn:E; [|reflexivity].
  apply Byte.byte_dec_bl in E.
  apply (f_equal Byte.to_N) in E. rewrite byte_of_N_small in E by lia.
  cbn in E. lia.
Qed.

Lemma lines_cons (b : bytes) : exists l ls, lines b = l :: ls.
Proof.
  induction b as [|x b (l & ls & E)]; [now exists [], []|].
  cbn [lines]. rewrite E. destruct (Byte.eqb x "010"%byte); eauto.
Qed.

Lemma lines_app (a b : bytes) :
  Forall (fun x => Byte.eqb x "010"%byte = false) a ->
  lines (a ++ b) =
  match lines b with
  | [] => [a]
  | l :: ls => (a ++ l) :: ls
  end.
Proof.
  destruct (lines_cons b) as (l & ls & E). rewrite E.
  induction 1 as [|x a Hx _ IH].
  - exact E.
  - cbn [app lines]. now rewrite Hx, IH.
Qed.

Lemma lines_single (a : bytes) :
  Forall (fun x => Byte.eqb x "010"%byte = false) a -> lines a = [a].
Proof.
  intros H. rewrite <- (app_nil_r a) at 1. rewrite (lines_app [] H).
  cbn [lines]. now rewrite app_nil_r.
Qed.

Lemma lines_break (a b : bytes) :
  Forall (fun x => Byte.eqb x "010"%byte = false) a ->
  lines (a ++ "010"%byte :: b) = a :: lines b.
Proof.
  intros H. rewrite (lines_app _ H). cbn [lines Byte.eqb].
  change (Byte.eqb "010"%byte "010"%byte) with true. cbn iota.
  now rewrite app_nil_r.
Qed.

Lemma ascii_bytes_app (a b : str) :
  ascii_bytes (a ++ b) = ascii_bytes a ++ ascii_bytes b.
Proof. unfold ascii_bytes. apply map_app. Qed.

(** The members joined by comma and line break, then a line break and a
    closing text: one line per member, then the closing line. *)
Lemma lines_join (l : list str) (x tail : str) :
  Forall printable (x :: l) -> printable tail ->
  lines (ascii_bytes (join (lit "," ++ [newline]) (x :: l) ++ [newline] ++ tail)) =
  map ascii_bytes (with_commas (x :: l)) ++ [ascii_bytes tail].
Proof.
  revert x. induction l as [|y l IH]; intros x Hall Htail.
  - cbn [join with_commas map app].
    rewrite ascii_bytes_app.
    change (ascii_bytes (newline :: tail)) with ("010"%byte :: ascii_bytes tail).
    rewrite lines_break by (apply printable_no_lf; now inversion Hall).
    now rewrite lines_single by now apply printable_no_lf.
  - inversion Hall as [|? ? Hx Hrest]; subst.
    change (join (lit "," ++ [newline]) (x :: y :: l))
      with (x ++ (lit "," ++ [newline]) ++ join (lit "," ++ [newline]) (y :: l)).
    change (with_commas (x :: y :: l)) with ((x ++ lit ",") :: with_commas (y :: l)).
    cbn [map app].
    replace ((x ++ (lit "," ++ [newline]) ++ join (lit "," ++ [newline]) (y :: l)) ++
             newline :: tail)
      with ((x ++ lit ",") ++ newline ::
            (join (lit "," ++ [newline]) (y :: l) ++ [newline] ++ tail))
      by (rewrite <- !app_assoc; reflexivity).
    rewrite ascii_bytes_app.
    change (ascii_bytes (newline :: ?t)) with ("010"%byte :: ascii_bytes t).
    rewrite lines_break.
    + f_equal. now apply IH.
    + apply printable_no_lf, printable_app; [exact Hx|now apply printable_check].
Qed.

Lemma render_flat (kv : str * str) (m : dict str) :
  render 2 0 (as_pyobj (kv :: m)) =
  lit "{" ++ [newline] ++
  (join (lit "," ++ [newline]) (map json_member (kv :: m)) ++ [newline] ++ lit "}").
Proof.
  unfold as_pyobj. cbn [map render]. rewrite !map_map.
  do 2 f_equal.
Qed.

End JsonLines.

(** X13: for every mapping of strings, whatever the keys and values hold,
    [json.dump] with indent 2 writes one member per line: the empty mapping
    gives the two bytes of an empty object; otherwise the lines are an
    opening brace, then for each entry, in order, two spaces, the escaped
    key, a colon and a space, the escaped value and (but for the last entry)
    a comma, then a closing brace.  Escaped strings are printable ASCII, so a
    line break inside a key or value never splits a line. *)
Theorem X13_one_member_per_line (m : dict str) :
  (m = [] -> stdout (json_dump (as_pyobj m) (Some 2%nat) []) = list_byte_of_string "{}") /\
  (m <> [] ->
   lines (stdout (json_dump (as_pyobj m) (Some 2%nat) [])) =
   [list_byte_of_string "{"] ++
   map Pretty.ascii_bytes (with_commas (map json_member m)) ++
   [list_byte_of_string "}"]) /\
  Forall printable (map json_member m).
Proof.
  rewrite json_dump_pretty. cbn [stdout app]. split; [|split].
  - intros ->. reflexivity.
  - intros Hne. destruct m as [|kv m]; [congruence|].
    rewrite render_flat. rewrite (ascii_bytes_app (lit "{")).
    change (Pretty.ascii_bytes (lit "{")) with (list_byte_of_string "{").
    change (Pretty.ascii_bytes ([Pretty.newline] ++ ?x))
      with ("010"%byte :: Pretty.ascii_bytes x).
    rewrite lines_break by (repeat constructor).
    apply (f_equal (cons (list_byte_of_string "{"))).
    change (map json_member (kv :: m)) with (json_member kv :: map json_member m).
    rewrite lines_join; [reflexivity| |now apply printable_check].
    constructor; [apply json_member_printable|].
    apply Forall_map, Forall_forall. intros x _. apply json_member_printable.
  - apply Forall_map, Forall_forall. intros x _. apply json_member_printable.
Qed.

Lemma X13_one_member_per_line_witness :
  lines (stdout (json_dump
                   (as_pyobj [(lit "a" ++ [chr 10] ++ lit "b", lit "x"); (lit "c", lit "y")])
                   (Some 2%nat) [])) =
  [list_byte_of_string "{"] ++
  map Pretty.ascii_bytes
      (with_commas (map json_member
                        [(lit "a" ++ [chr 10] ++ lit "b", lit "x"); (lit "c", lit "y")])) ++
  [list_byte_of_string "}"].
Proof.
  apply (proj1 (proj2 (X13_one_member_per_line
                         [(lit "a" ++ [chr 10] ++ lit "b", lit "x"); (lit "c", lit "y")]))).
  discriminate.
Defined.

(* ================================================================== *)
(** * Further properties: escaped strings can be read back *)

Section JsonStrings.
Import Json.
Local Open Scope N_scope.

Lemma unhex_hexdigit (i : N) : i < 16 -> unhex_digit (Hex.hexdigit i) = i.
Proof.
  intros H. apply N.eqb_eq.
  apply (@N_forall_below (fun i => unhex_digit (Hex.hexdigit i) =? i) 16);
    [reflexivity|exact H].
Qed.

Lemma hex4_format_04x (n : N) (rest : str) :
  n < 0x10000 ->
  exists a b c d,
    format_04x n ++ rest = a :: b :: c :: d :: rest /\ hex4 a b c d = n.
Proof.
  intros H. unfold format_04x. cbn [map app].
  do 4 eexists. split; [reflexivity|].
  unfold hex4.
  rewrite !unhex_hexdigit by (apply N.mod_lt; discriminate).
  change (16 ^ 3) with 4096. change (16 ^ 2) with 256.
  change (16 ^ 1) with 16. change (16 ^ 0) with 1.
  rewrite N.div_1_r.
  pose proof (N.div_mod n 16 ltac:(discriminate)) as D0.
  pose proof (N.div_mod (n / 16) 16 ltac:(discriminate)) as D1.
  pose proof (N.div_mod (n / 256) 16 ltac:(discriminate)) as D2.
  rewrite N.Div0.div_div in D1. change (16 * 16) with 256 in D1.
  rewrite N.Div0.div_div in D2. change (256 * 16) with 4096 in D2.
  assert (Hq : n / 4096 < 16) by (apply N.Div0.div_lt_upper_bound; lia).
  rewrite (N.mod_small (n / 4096) 16 Hq).
  lia.
Qed.

Lemma lor_0xd800 (y : N) : y < 1024 -> N.lor 0xd800 y = 0xd800 + y.
Proof.
  intros H. apply N.eqb_eq.
  apply (@N_forall_below (fun y => N.lor 0xd800 y =? 0xd800 + y) 1024);
    [now vm_compute|exact H].
Qed.

Lemma lor_0xdc00 (y : N) : y < 1024 -> N.lor 0xdc00 y = 0xdc00 + y.
Proof.
  intros H. apply N.eqb_eq.
  apply (@N_forall_below (fun y => N.lor 0xdc00 y =? 0xdc00 + y) 1024);
    [now vm_compute|exact H].
Qed.

Lemma land_0x3ff (x : N) : N.land x 0x3ff = x mod 1024.
Proof. change 0x3ff with (N.ones 10). now rewrite N.land_ones. Qed.

Lemma unescape_u (n : N) (rest : str) :
  n < 0x10000 -> ~ (0xD800 <= n <= 0xDBFF) ->
  unescape_first ((backslash :: lit "u" ++ format_04x n) ++ rest) = Some (n, rest).
Proof.
  intros H Hs.
  destruct (hex4_format_04x rest H) as (a & b & c & d & E & Hn).
  change ((backslash :: lit "u" ++ format_04x n) ++ rest)
    with (backslash :: chr 117 :: (format_04x n ++ rest)).
  rewrite E. cbn [unescape_first].
  change (ord backslash =? 92) with true. change (ord (chr 117) =? 117) with true.
  cbv iota. rewrite Hn.
  replace ((0xD800 <=? n) && (n <=? 0xDBFF)) with false; [reflexivity|].
  symmetry. apply andb_false_iff.
  destruct (N.leb_spec 0xD800 n); [right; apply N.leb_gt; lia|now left].
Qed.

Lemma unescape_pair (n : N) (rest : str) :
  0x10000 <= n < 0x110000 ->
  unescape_first
    (((backslash :: lit "u" ++
       format_04x (N.lor 0xd800 (N.land (N.shiftr (n - 0x10000) 10) 0x3ff))) ++
      (backslash :: lit "u" ++
       format_04x (N.lor 0xdc00 (N.land (n - 0x10000) 0x3ff)))) ++ rest) =
  Some (n, rest).
Proof.
  intros H. remember (n - 0x10000) as m eqn:Em.
  assert (Hm : m < 0x100000) by lia.
  rewrite !land_0x3ff, N.shiftr_div_pow2. change (2 ^ 10) with 1024.
  assert (Hq : m / 1024 < 1024) by (apply N.Div0.div_lt_upper_bound; lia).
  rewrite (N.mod_small _ _ Hq).
  pose proof (N.mod_lt m 1024 ltac:(discriminate)) as Hr.
  rewrite lor_0xd800, lor_0xdc00 by assumption.
  pose proof (N.div_mod m 1024 ltac:(discriminate)) as Dm.
  remember (m / 1024) as q eqn:Eq. remember (m mod 1024) as r eqn:Er.
  remember (0xd800 + q) as s1 eqn:Es1.
  remember (0xdc00 + r) as s2 eqn:Es2.
  destruct (@hex4_format_04x s1
              ((backslash :: lit "u" ++ format_04x s2) ++ rest))
    as (a & b & c & d & E1 & H1); [lia|].
  destruct (@hex4_format_04x s2 rest) as (a2 & b2 & c2 & d2 & E2 & H2); [lia|].
  replace (((backslash :: lit "u" ++ format_04x s1) ++
            (backslash :: lit "u" ++ format_04x s2)) ++ rest)
    with (backslash :: chr 117 ::
          (format_04x s1 ++ ((backslash :: lit "u" ++ format_04x s2) ++ rest)))
    by (cbn [app lit map list_ascii_of_string]; rewrite <- !app_assoc; reflexivity).
  rewrite E1.
  change ((backslash :: lit "u" ++ format_04x s2) ++ rest)
    with (backslash :: chr 117 :: (format_04x s2 ++ rest)).
  rewrite E2. cbn [unescape_first].
  change (ord backslash =? 92) with true. change (ord (chr 117) =? 117) with true.
  cbv iota. rewrite H1, H2.
  assert (Hs1 : (0xD800 <=? s1) && (s1 <=? 0xDBFF) = true).
  { clear - Es1 Hq. apply andb_true_iff. split; apply N.leb_le; lia. }
  rewrite Hs1. do 2 f_equal.
  clear - Dm Es1 Es2 Em H Hq Hr. lia.
Qed.

Lemma unescape_first_char (c : codepoint) (rest : str) :
  Utf8.is_surrogate (ord c) = false ->
  unescape_first ((if ESCAPE_ASCII (ord c) then replace c else [c]) ++ rest) =
  Some (ord c, rest).
Proof.
  intros Hs. pose proof (ord_lt c) as Hlt.
  unfold Utf8.is_surrogate in Hs. apply andb_false_iff in Hs.
  assert (Hns : ~ (0xD800 <= ord c <= 0xDFFF)).
  { intros [A B]. destruct Hs as [Hs|Hs]; apply N.leb_gt in Hs; lia. }
  clear Hs. unfold ESCAPE_ASCII.
  destruct (N.eqb_spec (ord c) 92) as [E92|N92].
  { cbn [orb]. unfold replace, ESCAPE_DCT. rewrite E92. reflexivity. }
  destruct (N.eqb_spec (ord c) 34) as [E34|N34].
  { cbn [orb]. unfold replace, ESCAPE_DCT. rewrite E34. reflexivity. }
  cbn [orb].
  destruct (N.leb_spec 0x20 (ord c)) as [L1|L1].
  - destruct (N.leb_spec (ord c) 0x7e) as [L2|L2]; cbn [andb negb].
    + cbn [app unescape_first].
      replace (ord c =? 92) with false by (symmetry; now apply N.eqb_neq).
      reflexivity.
    + unfold replace, ESCAPE_DCT.
      replace (ord c =? 92) with false by (symmetry; now apply N.eqb_neq).
      replace (ord c =? 34) with false by (symmetry; now apply N.eqb_neq).
      replace (ord c =? 8) with false by (symmetry; apply N.eqb_neq; lia).
      replace (ord c =? 12) with false by (symmetry; apply N.eqb_neq; lia).
      replace (ord c =? 10) with false by (symmetry; apply N.eqb_neq; lia).
      replace (ord c =? 13) with false by (symmetry; apply N.eqb_neq; lia).
      replace (ord c =? 9) with false by (symmetry; apply N.eqb_neq; lia).
      replace (ord c <? 0x20) with false by (symmetry; apply N.ltb_ge; lia).
      destruct (N.ltb_spec (ord c) 0x10000) as [L3|L3].
      * apply unescape_u; [exact L3|lia].
      * apply unescape_pair. lia.
  - cbn [andb negb]. unfold replace, ESCAPE_DCT.
    replace (ord c =? 92) with false by (symmetry; now apply N.eqb_neq).
    replace (ord c =? 34) with false by (symmetry; now apply N.eqb_neq).
    destruct (N.eqb_spec (ord c) 8) as [E|_]; [rewrite E; reflexivity|].
    destruct (N.eqb_spec (ord c) 12) as [E|_]; [rewrite E; reflexivity|].
    destruct (N.eqb_spec (ord c) 10) as [E|_]; [rewrite E; reflexivity|].
    destruct (N.eqb_spec (ord c) 13) as [E|_]; [rewrite E; reflexivity|].
    destruct (N.eqb_spec (ord c) 9) as [E|_]; [rewrite E; reflexivity|].
    replace (ord c <? 0x20) with true by (symmetry; apply N.ltb_lt; lia).
    apply unescape_u; lia.
Qed.

Lemma escaped_body_inj (s1 : str) :
  forall s2 : str,
    no_surrogate s1 -> no_surrogate s2 ->
    escaped_body s1 ++ [quote] = escaped_body s2 ++ [quote] -> s1 = s2.
Proof.
  unfold escaped_body.
  induction s1 as [|c1 r1 IH]; intros s2 H1 H2 E.
  - destruct s2 as [|c2 r2]; [reflexivity|].
    inversion H2 as [|? ? Hc2 _]; subst. cbn [flat_map] in E.
    pose proof (unescape_first_char c2
                  (flat_map (fun c => if ESCAPE_ASCII (ord c) then replace c else [c]) r2
                   ++ [quote]) Hc2) as D.
    rewrite <- app_assoc in E. rewrite <- E in D. cbn in D.
    injection D as _ D. destruct (flat_map _ r2); discriminate D.
  - inversion H1 as [|? ? Hc1 Hr1]; subst. cbn [flat_map] in E.
    pose proof (unescape_first_char c1
                  (flat_map (fun c => if ESCAPE_ASCII (ord c) then replace c else [c]) r1
                   ++ [quote]) Hc1) as D1.
    rewrite <- app_assoc in E.
    destruct s2 as [|c2 r2].
    + rewrite E in D1. cbn in D1. injection D1 as _ D1.
      destruct (flat_map _ r1); discriminate D1.
    + inversion H2 as [|? ? Hc2 Hr2]; subst. cbn [flat_map] in E.
      pose proof (unescape_first_char c2
                    (flat_map (fun c => if ESCAPE_ASCII (ord c) then replace c else [c]) r2
                     ++ [quote]) Hc2) as D2.
      rewrite <- app_assoc in E. rewrite E, D2 in D1. injection D1 as Hc Hr.
      f_equal; [now apply cp_ext|]. symmetry in Hr. now apply IH.
Qed.

End JsonStrings.

(** X14: on strings without surrogates the JSON escaping is injective: two
    such strings with the same escaped form are equal, so distinct names
    give distinct keys in the document.  With surrogates it is not: a
    character above U+FFFF and the two surrogates of its pair are written
    the same way. *)
Theorem X14_json_string_injective :
  (forall s1 s2 : str,
      no_surrogate s1 -> no_surrogate s2 ->
      Json.encode_basestring_ascii s1 = Json.encode_basestring_ascii s2 ->
      s1 = s2) /\
  Json.encode_basestring_ascii [chr 0x1F600] =
  Json.encode_basestring_ascii [chr 0xD83D; chr 0xDE00].
Proof.
  split; [|reflexivity].
  intros s1 s2 H1 H2 E. unfold Json.encode_basestring_ascii in E.
  cbn [app] in E. injection E as E.
  exact (escaped_body_inj H1 H2 E).
Qed.

Lemma X14_json_string_injective_witness :
  lit "C.Jobs" = map chr [67; 46; 74; 111; 98; 115]%N.
Proof.
  apply (proj1 X14_json_string_injective).
  - repeat constructor.
  - repeat constructor.
  - reflexivity.
Defined.
